(** * Multi-Agent Workflow Builder: editor canvas and execution engine

    Part I embeds the handlers of the React component
    [frontend/src/components/WorkflowCanvas.js] (state of the canvas,
    [addNode], [onNodeClick], [updateSelectedNode], [deleteSelectedNode],
    [saveWorkflow]) as pure functions over an explicit canvas state that
    return the new state together with the effects they issue (toasts,
    the HTTP request, the store update).

    Part II models the workflow execution engine (graph validation,
    topological order, dispatcher, executor, result aggregation).

    Part II-b embeds the zustand store [frontend/src/store/workflowStore.js]
    and the handlers of [frontend/src/components/ExecutionMonitor.js], and
    states the invariants of canvas sessions.

    Parts III and IV prove the properties of the editor and of the
    engine; Part V proves further properties of the editor, the store
    and the monitor. *)

From Stdlib Require Import List String Ascii Bool Arith NArith ZArith Lia.
From Stdlib Require Import Permutation Sorted PrimFloat DecimalString.
From Stdlib Require Import OrderedTypeEx DecimalN DecimalPos.
Import ListNotations.

Set Warnings "-register-all".

(** * Part I. The workflow editor *)

Module Canvas.

(** ** JavaScript strings

    A JavaScript string is a sequence of UTF-16 code units.  [===] on two
    strings compares them code unit by code unit. *)

Definition code_unit := N.
Definition jsstring := list code_unit.

Definition js (s : string) : jsstring :=
  map N_of_ascii (list_ascii_of_string s).

Fixpoint str_eqb (a b : jsstring) : bool :=
  match a, b with
  | [], [] => true
  | x :: a', y :: b' => N.eqb x y && str_eqb a' b'
  | _, _ => false
  end.

(** [WhiteSpace] and [LineTerminator] code points of ECMAScript, the
    characters [String.prototype.trim] strips. *)
Definition is_white_space (c : code_unit) : bool :=
  let eq := N.eqb c in
  (eq 9 || eq 10 || eq 11 || eq 12 || eq 13 || eq 32 || eq 160
   || eq 5760 || (N.leb 8192 c && N.leb c 8202)
   || eq 8232 || eq 8233 || eq 8239 || eq 8287 || eq 12288 || eq 65279)%N.

Fixpoint trim_start (s : jsstring) : jsstring :=
  match s with
  | [] => []
  | c :: s' => if is_white_space c then trim_start s' else s
  end.

Definition trim (s : jsstring) : jsstring :=
  rev (trim_start (rev (trim_start s))).

(** Truthiness of a string: the empty string is the only falsy one. *)
Definition truthy (s : jsstring) : bool :=
  match s with [] => false | _ :: _ => true end.

(** [a || b] on strings. *)
Definition or_else (a b : jsstring) : jsstring :=
  if truthy a then a else b.

(** The decimal digits of a non-negative integer, as [`${n}`] prints it. *)
Definition decimal (n : N) : jsstring :=
  js (NilZero.string_of_uint (N.to_uint n)).

(** ** Canvas data *)

Record position := { pos_x : float; pos_y : float }.

(** The JSX label of a node is kept symbolically: the expressions it is
    built from, not their rendering. *)
Inductive label :=
| LabelNew (type : jsstring)
| LabelConfigured (agentType model : jsstring).

Record node_data := {
  data_label : label;
  agentType : jsstring;
  model : jsstring;
  instructions : jsstring
}.

Record node_style := {
  background : jsstring;
  color : jsstring;
  border : jsstring;
  borderRadius : jsstring;
  padding : jsstring;
  minWidth : jsstring;
  boxShadow : jsstring
}.

Record node := {
  node_id : jsstring;
  node_type : jsstring;
  node_position : position;
  node_data_of : node_data;
  node_style_of : node_style
}.

Record edge := {
  edge_id : jsstring;
  source : jsstring;
  target : jsstring
}.

(** [nodeColors]: own keys of the colour table. *)
Definition nodeColors : list (string * string) :=
  [ ("planner", "#7c3aed"); ("executor", "#3b82f6"); ("reviewer", "#10b981");
    ("start", "#10b981"); ("end", "#ef4444") ]%string.

Fixpoint lookup_color (tbl : list (string * string)) (k : jsstring)
  : option jsstring :=
  match tbl with
  | [] => None
  | (k', v) :: tbl' => if str_eqb (js k') k then Some (js v) else lookup_color tbl' k
  end.

(** [nodeColors[type] || '#3b82f6'] *)
Definition color_or_default (type : jsstring) : jsstring :=
  match lookup_color nodeColors type with
  | Some c => or_else c (js "#3b82f6")
  | None => js "#3b82f6"
  end.

(** [`0 0 20px ${nodeColors[type]}33`]; a missing key prints as
    [undefined]. *)
Definition shadow_of (type : jsstring) : jsstring :=
  js "0 0 20px " ++
  match lookup_color nodeColors type with
  | Some c => c
  | None => js "undefined"
  end ++ js "33".

(** The component state held by the [useState]/[useNodesState] hooks. *)
Record canvas := {
  nodes : list node;
  edges : list edge;
  workflowName : jsstring;
  workflowDescription : jsstring;
  selectedNode : option node;
  selectedAgentType : jsstring;
  selectedModel : jsstring;
  nodeInstructions : jsstring
}.

(** Initial state of the hooks. *)
Definition initial : canvas :=
  {| nodes := []; edges := []; workflowName := []; workflowDescription := [];
     selectedNode := None; selectedAgentType := js "planner";
     selectedModel := js "mistral"; nodeInstructions := [] |}.

(** ** JSON payloads *)

Inductive json :=
| JNull
| JStr (s : jsstring)
| JNum (x : float)
| JArr (items : list json)
| JObj (fields : list (string * json)).

Definition keys (j : json) : list string :=
  match j with
  | JObj fields => map fst fields
  | _ => []
  end.

Fixpoint assoc (k : string) (fields : list (string * json)) : option json :=
  match fields with
  | [] => None
  | (k', v) :: rest => if String.eqb k k' then Some v else assoc k rest
  end.

Definition field (k : string) (j : json) : option json :=
  match j with
  | JObj fields => assoc k fields
  | _ => None
  end.

Definition items_of (j : json) : list json :=
  match j with
  | JArr items => items
  | _ => []
  end.

(** ** Effects issued by the handlers *)

Inductive effect :=
| ToastSuccess (msg : string)
| ToastError (msg : string)
| Post (url : string) (body : json)
| AddWorkflow (data : json)
| ConsoleError (msg : string).

(** ** Handlers *)

Definition set_nodes (st : canvas) (nds : list node) : canvas :=
  {| nodes := nds; edges := edges st; workflowName := workflowName st;
     workflowDescription := workflowDescription st;
     selectedNode := selectedNode st;
     selectedAgentType := selectedAgentType st;
     selectedModel := selectedModel st;
     nodeInstructions := nodeInstructions st |}.

Definition set_edges (st : canvas) (eds : list edge) : canvas :=
  {| nodes := nodes st; edges := eds; workflowName := workflowName st;
     workflowDescription := workflowDescription st;
     selectedNode := selectedNode st;
     selectedAgentType := selectedAgentType st;
     selectedModel := selectedModel st;
     nodeInstructions := nodeInstructions st |}.

Definition set_selected (st : canvas) (sel : option node) : canvas :=
  {| nodes := nodes st; edges := edges st; workflowName := workflowName st;
     workflowDescription := workflowDescription st;
     selectedNode := sel;
     selectedAgentType := selectedAgentType st;
     selectedModel := selectedModel st;
     nodeInstructions := nodeInstructions st |}.

(** [addNode(type)].  [now] is the value [Date.now()] returns and [r1],
    [r2] the two values [Math.random()] returns during the call. *)
Definition addNode (now : N) (r1 r2 : float) (type : jsstring) (st : canvas)
  : canvas :=
  let newNode :=
    {| node_id := js "node-" ++ decimal now;
       node_type := js "default";
       node_position := {| pos_x := (r1 * 400 + 100)%float;
                           pos_y := (r2 * 300 + 100)%float |};
       node_data_of := {| data_label := LabelNew type;
                          agentType := type;
                          model := selectedModel st;
                          instructions := js "Default agent instructions" |};
       node_style_of := {| background := color_or_default type;
                           color := js "#ffffff";
                           border := js "2px solid rgba(255,255,255,0.2)";
                           borderRadius := js "8px";
                           padding := js "0";
                           minWidth := js "150px";
                           boxShadow := shadow_of type |} |} in
  set_nodes st (nodes st ++ [newNode]).

(** [onNodeClick(event, node)] *)
Definition onNodeClick (n : node) (st : canvas) : canvas :=
  {| nodes := nodes st; edges := edges st; workflowName := workflowName st;
     workflowDescription := workflowDescription st;
     selectedNode := Some n;
     selectedAgentType := or_else (agentType (node_data_of n)) (js "executor");
     selectedModel := or_else (model (node_data_of n)) (js "mistral");
     nodeInstructions := or_else (instructions (node_data_of n)) [] |}.

(** [updateSelectedNode()] *)
Definition updateSelectedNode (st : canvas) : canvas * list effect :=
  match selectedNode st with
  | None => (st, [])
  | Some sel =>
      let upd (n : node) :=
        if str_eqb (node_id n) (node_id sel) then
          {| node_id := node_id n;
             node_type := node_type n;
             node_position := node_position n;
             node_data_of :=
               {| data_label :=
                    LabelConfigured (selectedAgentType st) (selectedModel st);
                  agentType := selectedAgentType st;
                  model := selectedModel st;
                  instructions := nodeInstructions st |};
             node_style_of :=
               {| background := color_or_default (selectedAgentType st);
                  color := color (node_style_of n);
                  border := border (node_style_of n);
                  borderRadius := borderRadius (node_style_of n);
                  padding := padding (node_style_of n);
                  minWidth := minWidth (node_style_of n);
                  boxShadow := shadow_of (selectedAgentType st) |} |}
        else n in
      (set_nodes st (map upd (nodes st)),
       [ToastSuccess "Node updated successfully"])
  end.

(** [deleteSelectedNode()] *)
Definition deleteSelectedNode (st : canvas) : canvas * list effect :=
  match selectedNode st with
  | None => (st, [])
  | Some sel =>
      let nds := filter (fun n => negb (str_eqb (node_id n) (node_id sel)))
                        (nodes st) in
      let eds := filter (fun e => negb (str_eqb (source e) (node_id sel))
                                  && negb (str_eqb (target e) (node_id sel)))
                        (edges st) in
      (set_selected (set_edges (set_nodes st nds) eds) None,
       [ToastSuccess "Node deleted"])
  end.

(** The request body [workflowData] built by [saveWorkflow]. *)
Definition node_payload (n : node) : json :=
  JObj [ ("id", JStr (node_id n));
         ("type", JStr (js "agent"));
         ("agent_type", JStr (agentType (node_data_of n)));
         ("model", JStr (model (node_data_of n)));
         ("instructions", JStr (instructions (node_data_of n)));
         ("position", JObj [ ("x", JNum (pos_x (node_position n)));
                             ("y", JNum (pos_y (node_position n))) ]) ]%string.

Definition edge_payload (e : edge) : json :=
  JObj [ ("id", JStr (edge_id e));
         ("source", JStr (source e));
         ("target", JStr (target e));
         ("condition", JNull) ]%string.

Definition workflowData (st : canvas) : json :=
  JObj [ ("name", JStr (workflowName st));
         ("description", JStr (workflowDescription st));
         ("nodes", JArr (map node_payload (nodes st)));
         ("edges", JArr (map edge_payload (edges st))) ]%string.

(** [saveWorkflow()].  [response] is the outcome of the awaited
    [axios.post]: [Some data] when the promise resolves with
    [response.data = data], [None] when it rejects. *)
Definition saveWorkflow (response : option json) (st : canvas)
  : canvas * list effect :=
  if negb (truthy (trim (workflowName st))) then
    (st, [ToastError "Please enter a workflow name"])
  else if Nat.eqb (List.length (nodes st)) 0 then
    (st, [ToastError "Add at least one node to the workflow"])
  else
    let request := Post "/api/workflows" (workflowData st) in
    match response with
    | Some data =>
        ({| nodes := []; edges := []; workflowName := [];
            workflowDescription := [];
            selectedNode := None;
            selectedAgentType := selectedAgentType st;
            selectedModel := selectedModel st;
            nodeInstructions := nodeInstructions st |},
         [request; AddWorkflow data;
          ToastSuccess "Workflow saved successfully!"])
    | None =>
        (st, [request; ConsoleError "Error saving workflow:";
              ToastError "Failed to save workflow"])
    end.

(** ** Payload shapes

    [has_fields ks j]: [j] is an object whose field names are exactly
    [ks], in any order. *)
Definition has_fields (ks : list string) (j : json) : Prop :=
  exists fields, j = JObj fields /\ Permutation (map fst fields) ks.

Definition array_field (k : string) (j : json) : list json :=
  match field k j with
  | Some v => items_of v
  | None => []
  end.

(** The persisted form as the interface description words it:
    [{id, name, description, nodes: [{id, agent_type, model, instructions}],
      edges: [{id, source, target, condition|null}]}]. *)
Definition persisted_form (p : json) : Prop :=
  has_fields ["id"; "name"; "description"; "nodes"; "edges"]%string p
  /\ (forall n, In n (array_field "nodes" p) ->
        has_fields ["id"; "agent_type"; "model"; "instructions"]%string n)
  /\ (forall e, In e (array_field "edges" p) ->
        has_fields ["id"; "source"; "target"; "condition"]%string e).

(** The form of the body [saveWorkflow] sends. *)
Definition request_form (p : json) : Prop :=
  has_fields ["name"; "description"; "nodes"; "edges"]%string p
  /\ (forall n, In n (array_field "nodes" p) ->
        has_fields ["id"; "type"; "agent_type"; "model"; "instructions";
                    "position"]%string n)
  /\ (forall e, In e (array_field "edges" p) ->
        has_fields ["id"; "source"; "target"; "condition"]%string e).

(** The ids of the node objects of a payload. *)
Definition payload_node_ids (p : json) : list (option json) :=
  map (field "id") (array_field "nodes" p).

(** The bodies of the save requests among a list of effects. *)
Fixpoint posted (effs : list effect) : list json :=
  match effs with
  | [] => []
  | Post _ body :: rest => body :: posted rest
  | _ :: rest => posted rest
  end.

(** ** Sessions

    What the user can do on the canvas.  Besides the handlers above these
    are the field setters bound to the inputs, and the two change
    handlers handed to React Flow: [onNodesChange], for the nodes the
    user removes or drags, and [onConnect]/[onEdgesChange], after which
    the edge list is whatever React Flow computed. *)
Inductive action :=
| AddNode (now : N) (r1 r2 : float) (type : jsstring)
| NodeClick (n : node)
| UpdateSelected
| DeleteSelected
| Save (response : option json)
| SetName (s : jsstring)
| SetDescription (s : jsstring)
| SelectAgentType (s : jsstring)
| SelectModel (s : jsstring)
| SetInstructions (s : jsstring)
| NodesChange (keep : node -> bool) (place : node -> position)
| EdgesChange (eds : list edge).

Definition move_node (place : node -> position) (n : node) : node :=
  {| node_id := node_id n; node_type := node_type n;
     node_position := place n; node_data_of := node_data_of n;
     node_style_of := node_style_of n |}.

Definition perform (a : action) (st : canvas) : canvas :=
  match a with
  | AddNode now r1 r2 type => addNode now r1 r2 type st
  | NodeClick n => onNodeClick n st
  | UpdateSelected => fst (updateSelectedNode st)
  | DeleteSelected => fst (deleteSelectedNode st)
  | Save response => fst (saveWorkflow response st)
  | SetName s =>
      {| nodes := nodes st; edges := edges st; workflowName := s;
         workflowDescription := workflowDescription st;
         selectedNode := selectedNode st;
         selectedAgentType := selectedAgentType st;
         selectedModel := selectedModel st;
         nodeInstructions := nodeInstructions st |}
  | SetDescription s =>
      {| nodes := nodes st; edges := edges st;
         workflowName := workflowName st; workflowDescription := s;
         selectedNode := selectedNode st;
         selectedAgentType := selectedAgentType st;
         selectedModel := selectedModel st;
         nodeInstructions := nodeInstructions st |}
  | SelectAgentType s =>
      {| nodes := nodes st; edges := edges st;
         workflowName := workflowName st;
         workflowDescription := workflowDescription st;
         selectedNode := selectedNode st;
         selectedAgentType := s;
         selectedModel := selectedModel st;
         nodeInstructions := nodeInstructions st |}
  | SelectModel s =>
      {| nodes := nodes st; edges := edges st;
         workflowName := workflowName st;
         workflowDescription := workflowDescription st;
         selectedNode := selectedNode st;
         selectedAgentType := selectedAgentType st;
         selectedModel := s;
         nodeInstructions := nodeInstructions st |}
  | SetInstructions s =>
      {| nodes := nodes st; edges := edges st;
         workflowName := workflowName st;
         workflowDescription := workflowDescription st;
         selectedNode := selectedNode st;
         selectedAgentType := selectedAgentType st;
         selectedModel := selectedModel st;
         nodeInstructions := s |}
  | NodesChange keep place =>
      set_nodes st (map (move_node place) (filter keep (nodes st)))
  | EdgesChange eds => set_edges st eds
  end.

Definition session (acts : list action) : canvas :=
  fold_left (fun st a => perform a st) acts initial.

(** The values [Date.now()] returned to the [addNode] calls of a session. *)
Fixpoint clock_readings (acts : list action) : list N :=
  match acts with
  | [] => []
  | AddNode now _ _ _ :: rest => now :: clock_readings rest
  | _ :: rest => clock_readings rest
  end.

Definition id_at (now : N) : jsstring := js "node-" ++ decimal now.

(** ** Sample canvases *)

(** A canvas with one planner node, ready to be saved. *)
Definition one_node_canvas : canvas :=
  {| nodes := nodes (addNode 1700000000000 0.5 0.25 (js "planner") initial);
     edges := [];
     workflowName := js "Demo";
     workflowDescription := [];
     selectedNode := None;
     selectedAgentType := js "planner";
     selectedModel := js "mistral";
     nodeInstructions := [] |}.

Definition sample_node (id : string) : node :=
  {| node_id := js id;
     node_type := js "default";
     node_position := {| pos_x := 120; pos_y := 140 |};
     node_data_of := {| data_label := LabelNew (js "planner");
                        agentType := js "planner";
                        model := js "mistral";
                        instructions := js "Default agent instructions" |};
     node_style_of := {| background := js "#7c3aed";
                         color := js "#ffffff";
                         border := js "2px solid rgba(255,255,255,0.2)";
                         borderRadius := js "8px";
                         padding := js "0";
                         minWidth := js "150px";
                         boxShadow := js "0 0 20px #7c3aed33" |} |}.

Definition sample_edge (src tgt : string) : edge :=
  {| edge_id := js "reactflow__edge-" ++ js src ++ js "-" ++ js tgt;
     source := js src; target := js tgt |}.

(** Three nodes in a chain, the first of them selected. *)
Definition chain_canvas : canvas :=
  {| nodes := [sample_node "node-1"; sample_node "node-2"; sample_node "node-3"];
     edges := [sample_edge "node-1" "node-2"; sample_edge "node-2" "node-3"];
     workflowName := js "Chain";
     workflowDescription := js "three agents";
     selectedNode := Some (sample_node "node-1");
     selectedAgentType := js "planner";
     selectedModel := js "mistral";
     nodeInstructions := [] |}.

(** A canvas with a node but a name made of a space, a tab and a
    no-break space. *)
Definition blank_name_canvas : canvas :=
  {| nodes := [sample_node "node-1"];
     edges := [];
     workflowName := [32; 9; 160]%N;
     workflowDescription := [];
     selectedNode := None;
     selectedAgentType := js "planner";
     selectedModel := js "mistral";
     nodeInstructions := [] |}.

End Canvas.

(** * Part II. The workflow execution engine

    The engine itself (graph model, registry, dispatcher, executor,
    aggregator) is server code; the editor above and the execution
    monitor are its only clients in this tree.  The definitions of this
    part follow the design document of the engine, section by section. *)

Module Engine.

(** ** Data model *)

(** Modelled from the spec: a node of a workflow, with its id, agent-type
    tag, model name and instructions. *)
Record Node := {
  id : string;
  agent_type : string;
  model : string;
  instructions : string
}.

(** Modelled from the spec: an edge, with its optional condition, a
    deferred expression kept as written. *)
Record Edge := {
  edge_id : string;
  source : string;
  target : string;
  condition : option string
}.

(** Modelled from the spec: the persisted workflow graph. *)
Record Workflow := {
  workflow_id : string;
  name : string;
  description : string;
  nodes : list Node;
  edges : list Edge
}.

Definition node_ids (w : Workflow) : list string := map id (nodes w).

(** ** GraphModel *)

Inductive GraphValidationError :=
| DuplicateNodeId (n : string)
| DanglingEdge (e : string)
| CycleDetected (n : string).

Inductive validation :=
| Valid
| Invalid (e : GraphValidationError).

Definition mem (x : string) (l : list string) : bool :=
  existsb (String.eqb x) l.

(** Modelled from the spec: the duplicate-id check of [validate], the
    first of its three checks. *)
Fixpoint first_duplicate (seen ids : list string) : option string :=
  match ids with
  | [] => None
  | i :: rest =>
      if mem i seen then Some i else first_duplicate (i :: seen) rest
  end.

(** Modelled from the spec: the dangling-edge check of [validate], an
    edge whose source or target is not a node id of the workflow. *)
Definition first_dangling (ids : list string) (es : list Edge)
  : option Edge :=
  find (fun e => negb (mem (source e) ids && mem (target e) ids)) es.

Definition successors (es : list Edge) (n : string) : list string :=
  map target (filter (fun e => String.eqb (source e) n) es).

Definition predecessors (es : list Edge) (n : string) : list string :=
  map source (filter (fun e => String.eqb (target e) n) es).

Inductive colour := White | Grey | Black.

(** Grey nodes are those on the current search path, black ones those
    whose search has finished. *)
Definition colour_of (grey black : list string) (n : string) : colour :=
  if mem n black then Black
  else if mem n grey then Grey
  else White.

Inductive dfs_result :=
| Finished (black : list string)
| BackEdge (n : string)
| OutOfFuel.

Fixpoint visit_each (visit : list string -> string -> dfs_result)
    (ns : list string) (black : list string) : dfs_result :=
  match ns with
  | [] => Finished black
  | n :: rest =>
      match visit black n with
      | Finished black' => visit_each visit rest black'
      | stop => stop
      end
  end.

(** Modelled from the spec: cycle detection of [validate] by depth-first
    colouring; the first back-edge found is reported with the node it
    leads back to.  The recursion depth is bounded by [fuel]. *)
Fixpoint visit (fuel : nat) (es : list Edge) (grey black : list string)
    (n : string) : dfs_result :=
  match colour_of grey black n with
  | Black => Finished black
  | Grey => BackEdge n
  | White =>
      match fuel with
      | 0 => OutOfFuel
      | S fuel' =>
          match visit_each (visit fuel' es (n :: grey)) (successors es n) black with
          | Finished black' => Finished (n :: black')
          | stop => stop
          end
      end
  end.

Definition detect_cycle (w : Workflow) : dfs_result :=
  visit_each (visit (List.length (nodes w)) (edges w) []) (node_ids w) [].

(** Modelled from the spec: [validate(workflow) -> Ok | GraphValidationError],
    checking in order duplicate node ids, edges referencing unknown
    nodes, cycles.  [None] stands for a search cut short by its depth
    bound, which [validate_total] excludes. *)
Definition validate (w : Workflow) : option validation :=
  match first_duplicate [] (node_ids w) with
  | Some d => Some (Invalid (DuplicateNodeId d))
  | None =>
      match first_dangling (node_ids w) (edges w) with
      | Some e => Some (Invalid (DanglingEdge (edge_id e)))
      | None =>
          match detect_cycle w with
          | Finished _ => Some Valid
          | BackEdge n => Some (Invalid (CycleDetected n))
          | OutOfFuel => None
          end
      end
  end.

(** The directed graph of a workflow: a path follows one or more edges. *)
Inductive path (es : list Edge) : string -> string -> Prop :=
| path_edge e : In e es -> path es (source e) (target e)
| path_step e z : In e es -> path es (target e) z -> path es (source e) z.

Definition has_cycle (w : Workflow) : Prop :=
  exists n, path (edges w) n n.

(** Modelled from the spec: the topological rank of a node, the length
    of the longest chain of edges that ends at it; roots have rank 0. *)
Fixpoint rank (fuel : nat) (es : list Edge) (n : string) : nat :=
  match fuel with
  | 0 => 0
  | S fuel' => list_max (map (fun p => S (rank fuel' es p)) (predecessors es n))
  end.

(** [precedes rk a b]: [a] is placed no later than [b], by rank first and
    by ascending id among equal ranks. *)
Definition precedes (rk : string -> nat) (a b : string) : bool :=
  (rk a <? rk b) || ((rk a =? rk b) && (a <=? b)%string).

Fixpoint insert (rk : string -> nat) (x : Node) (l : list Node) : list Node :=
  match l with
  | [] => [x]
  | y :: l' =>
      if precedes rk (id x) (id y) then x :: l else y :: insert rk x l'
  end.

Definition sort_nodes (rk : string -> nat) (l : list Node) : list Node :=
  fold_right (insert rk) [] l.

(** Modelled from the spec: [topologicalOrder()] of a validated graph,
    the nodes by rank, ties at equal rank broken by ascending node id. *)
Definition topologicalOrder (w : Workflow) : list Node :=
  sort_nodes (rank (List.length (nodes w)) (edges w)) (nodes w).

(** ** ModelClient *)

Inductive ModelRuntimeError := Unreachable | Timeout | InvalidModel.

Inductive reply :=
| Text (t : string)
| Fail (e : ModelRuntimeError).

Record request := {
  req_model : string;
  req_instructions : string;
  req_input : string
}.

(** The inference backend is outside the engine: a client is given by
    what it answers to the [k]-th call made through it. *)
Definition ModelClient := nat -> request -> reply.

(** What a run does to the outside: the calls it makes and the pauses
    it takes, oldest first. *)
Inductive event :=
| Invoke (r : request)
| Backoff (delay : nat).

Record world := {
  calls : nat;
  log : list event
}.

Definition M (A : Type) : Type := world -> A * world.

Definition ret {A : Type} (a : A) : M A := fun w => (a, w).

Definition bind {A B : Type} (m : M A) (k : A -> M B) : M B :=
  fun w => let (a, w') := m w in k a w'.

Notation "x <- m ;; k" := (bind m (fun x => k))
  (at level 61, m at next level, right associativity).

(** Modelled from the spec: [invoke(model, instructions, input) ->
    text | Fail{Unreachable, Timeout, InvalidModel}]. *)
Definition invoke (client : ModelClient) (r : request) : M reply :=
  fun w => (client (calls w) r,
            {| calls := S (calls w); log := log w ++ [Invoke r] |}).

Definition pause (delay : nat) : M unit :=
  fun w => (tt, {| calls := calls w; log := log w ++ [Backoff delay] |}).

(** ** AgentRegistry and AgentDispatcher *)

(** Modelled from the spec: a behaviour, the one capability "given
    instructions, model and input, produce a text result"; behaviours
    differ in the role text they put before the node's instructions. *)
Record Behavior := { role_prompt : string }.

Definition run_behavior (client : ModelClient) (b : Behavior)
    (instr modelName input : string) : M reply :=
  invoke client {| req_model := modelName;
                   req_instructions := role_prompt b ++ instr;
                   req_input := input |}.

Definition AgentRegistry := list (string * Behavior).

Fixpoint lookup (reg : AgentRegistry) (tag : string) : option Behavior :=
  match reg with
  | [] => None
  | (t, b) :: reg' => if String.eqb t tag then Some b else lookup reg' tag
  end.

Definition context := list (string * string).

(** What the engine is configured with and runs against: the registry,
    the client, the fixed backoff before a retry, how the input of a
    node is put together from the run's input and the accumulated
    context, the evaluation hook for edge conditions, and whether
    cancellation has been requested when the node at a given position
    of the order is about to be dispatched. *)
Record Env := {
  registry : AgentRegistry;
  client : ModelClient;
  backoff : nat;
  compose : string -> context -> string;
  eval_condition : string -> context -> bool;
  cancel_requested : nat -> bool
}.

Inductive DispatchError := UnknownAgentType (tag : string).

Inductive StepResult :=
| Produced (text : string)
| RuntimeFailure (e : ModelRuntimeError)
| DispatchFailure (e : DispatchError).

Definition transient (e : ModelRuntimeError) : bool :=
  match e with
  | Unreachable | Timeout => true
  | InvalidModel => false
  end.

(** Modelled from the spec: [dispatch(node, accumulatedContext) ->
    StepResult]. *)
Definition dispatch (env : Env) (n : Node) (input : string) : M StepResult :=
  match lookup (registry env) (agent_type n) with
  | None => ret (DispatchFailure (UnknownAgentType (agent_type n)))
  | Some b =>
      r1 <- run_behavior (client env) b (instructions n) (model n) input ;;
      match r1 with
      | Text t => ret (Produced t)
      | Fail e =>
          if transient e then
            _ <- pause (backoff env) ;;
            r2 <- run_behavior (client env) b (instructions n) (model n) input ;;
            match r2 with
            | Text t => ret (Produced t)
            | Fail e2 => ret (RuntimeFailure e2)
            end
          else ret (RuntimeFailure e)
      end
  end.

Fixpoint invocations (l : list event) : nat :=
  match l with
  | [] => 0
  | Invoke _ :: l' => S (invocations l')
  | Backoff _ :: l' => invocations l'
  end.

(** ** Executions *)

(** Modelled from the spec: the observable status values of an
    Execution. *)
Inductive Status := Queued | Running | Completed | Failed | Canceled.

Definition terminal (s : Status) : bool :=
  match s with
  | Completed | Failed | Canceled => true
  | Queued | Running => false
  end.


Inductive StepStatus := StepSuccess | StepError.

(** Modelled from the spec: a Step, the recorded outcome of one node's
    dispatch; its result carries the text, or the error detail. *)
Record Step := {
  step_node : string;
  step_agent : string;
  step_result : StepResult
}.

Definition step_status (s : Step) : StepStatus :=
  match step_result s with
  | Produced _ => StepSuccess
  | _ => StepError
  end.

Definition result_text (s : Step) : option string :=
  match step_result s with
  | Produced t => Some t
  | _ => None
  end.

(** Modelled from the spec: an Execution record. *)
Record Execution := {
  execution_id : nat;
  of_workflow : string;
  input : string;
  initial_context : context;
  status : Status;
  steps : list Step;
  final_output : option string;
  created_at : nat
}.

Definition set_status (x : Execution) (s : Status) (out : option string)
  : Execution :=
  {| execution_id := execution_id x; of_workflow := of_workflow x;
     input := input x; initial_context := initial_context x;
     status := s; steps := steps x; final_output := out;
     created_at := created_at x |}.

Definition append_step (x : Execution) (s : Step) : Execution :=
  {| execution_id := execution_id x; of_workflow := of_workflow x;
     input := input x; initial_context := initial_context x;
     status := status x; steps := steps x ++ [s];
     final_output := final_output x; created_at := created_at x |}.

(** ** ResultAggregator *)

Definition last_of {A : Type} (l : list A) : option A :=
  match rev l with
  | [] => None
  | a :: _ => Some a
  end.

Definition step_of (trace : list Step) (n : Node) : option Step :=
  find (fun s => String.eqb (step_node s) (id n)) trace.

Definition produced_a_step (trace : list Step) (n : Node) : bool :=
  match step_of trace n with
  | Some _ => true
  | None => false
  end.

(** The last node of the order that produced a Step. *)
Definition last_producer (order : list Node) (trace : list Step)
  : option Node :=
  last_of (filter (produced_a_step trace) order).

Definition text_of (s : option Step) : option string :=
  match s with
  | Some st => result_text st
  | None => None
  end.

(** Modelled from the spec: the aggregation rule.  If the last node of
    the order that produced a Step is tagged [reviewer], its result text
    is the output; otherwise the result text of the last Step is. *)
Definition aggregate (order : list Node) (trace : list Step)
  : option string :=
  match last_producer order trace with
  | Some n =>
      if String.eqb (agent_type n) "reviewer"
      then text_of (step_of trace n)
      else text_of (last_of trace)
  | None => None
  end.

(** ** Executor *)

Record run_state := {
  exec : Execution;
  snapshot : Workflow;
  pending : list Node;
  context_now : context;
  passed : nat;
  world_now : world
}.

Definition edge_open (env : Env) (ctx : context) (e : Edge) : bool :=
  match condition e with
  | None => true
  | Some c => eval_condition env c ctx
  end.

Definition incoming (w : Workflow) (n : Node) : list Edge :=
  filter (fun e => String.eqb (target e) (id n)) (edges w).

(** A node is skipped when it has incoming edges and all of them are
    gated false. *)
Definition skipped (env : Env) (w : Workflow) (ctx : context) (n : Node)
  : bool :=
  match incoming w n with
  | [] => false
  | es => forallb (fun e => negb (edge_open env ctx e)) es
  end.

(** Modelled from the spec: one move of the executor's state machine. *)
Definition exec_step (env : Env) (s : run_state) : run_state :=
  match status (exec s) with
  | Queued =>
      match validate (snapshot s) with
      | Some Valid =>
          {| exec := set_status (exec s) Running None;
             snapshot := snapshot s;
             pending := topologicalOrder (snapshot s);
             context_now := context_now s;
             passed := 0;
             world_now := world_now s |}
      | _ =>
          {| exec := set_status (exec s) Failed None;
             snapshot := snapshot s;
             pending := [];
             context_now := context_now s;
             passed := passed s;
             world_now := world_now s |}
      end
  | Running =>
      match pending s with
      | [] =>
          {| exec := set_status (exec s) Completed
                       (aggregate (topologicalOrder (snapshot s))
                                  (steps (exec s)));
             snapshot := snapshot s;
             pending := [];
             context_now := context_now s;
             passed := passed s;
             world_now := world_now s |}
      | n :: rest =>
          if cancel_requested env (passed s) then
            {| exec := set_status (exec s) Canceled None;
               snapshot := snapshot s;
               pending := pending s;
               context_now := context_now s;
               passed := passed s;
               world_now := world_now s |}
          else if skipped env (snapshot s) (context_now s) n then
            {| exec := exec s;
               snapshot := snapshot s;
               pending := rest;
               context_now := context_now s;
               passed := S (passed s);
               world_now := world_now s |}
          else
            let (r, w') :=
              dispatch env n (compose env (input (exec s)) (context_now s))
                       (world_now s) in
            let st := {| step_node := id n; step_agent := agent_type n;
                         step_result := r |} in
            match r with
            | Produced t =>
                {| exec := append_step (exec s) st;
                   snapshot := snapshot s;
                   pending := rest;
                   context_now := (id n, t) :: context_now s;
                   passed := S (passed s);
                   world_now := w' |}
            | _ =>
                {| exec := set_status (append_step (exec s) st) Failed None;
                   snapshot := snapshot s;
                   pending := pending s;
                   context_now := context_now s;
                   passed := passed s;
                   world_now := w' |}
            end
      end
  | Completed | Failed | Canceled => s
  end.

Fixpoint run (env : Env) (fuel : nat) (s : run_state) : run_state :=
  match fuel with
  | 0 => s
  | S fuel' => run env fuel' (exec_step env s)
  end.

(** The ExecutionStore is modelled by the records it holds. *)
Definition ExecutionStore := list Execution.

Definition create (store : ExecutionStore) (w : Workflow) (inp : string)
    (ctx : context) (now : nat) : Execution :=
  {| execution_id := List.length store; of_workflow := workflow_id w;
     input := inp; initial_context := ctx; status := Queued; steps := [];
     final_output := None; created_at := now |}.

Definition start (w : Workflow) (x : Execution) : run_state :=
  {| exec := x; snapshot := w; pending := [];
     context_now := initial_context x; passed := 0;
     world_now := {| calls := 0; log := [] |} |}.

Inductive outcome :=
| Rejected (e : GraphValidationError)
| Ran (x : Execution).

(** Modelled from the spec: the execute request.  The workflow is
    validated first; an invalid graph is rejected before any Execution
    exists.  Otherwise an Execution is created and run to its terminal
    status, which takes one move to accept it, at most one per node, and
    one to complete. *)
Definition execute (env : Env) (store : ExecutionStore) (w : Workflow)
    (inp : string) (ctx : context) (now : nat)
  : ExecutionStore * option outcome :=
  match validate w with
  | Some Valid =>
      let x := create store w inp ctx now in
      let final := exec (run env (List.length (nodes w) + 2) (start w x)) in
      (store ++ [final], Some (Ran final))
  | Some (Invalid e) => (store, Some (Rejected e))
  | None => (store, None)
  end.

(** ** Well-formedness of a workflow graph *)

Definition unique_ids (w : Workflow) : Prop := NoDup (node_ids w).

Definition no_dangling (w : Workflow) : Prop :=
  forall e, In e (edges w) ->
    In (source e) (node_ids w) /\ In (target e) (node_ids w).

(** [finishing es l]: every successor of an element of [l] occurs
    later in [l].  The list of finished nodes of a search that found no
    back-edge is of this kind. *)
Fixpoint finishing (es : list Edge) (l : list string) : Prop :=
  match l with
  | [] => True
  | u :: l' => (forall v, In v (successors es u) -> In v l') /\ finishing es l'
  end.

(** [linked es l]: each element of [l] has an edge to the element
    before it, so [l] read backwards is a chain of edges.  The stack of
    grey nodes of a search is of this kind. *)
Fixpoint linked (es : list Edge) (l : list string) : Prop :=
  match l with
  | [] => True
  | p :: t =>
      match t with
      | [] => True
      | q :: _ => In p (successors es q) /\ linked es t
      end
  end.

(** The node a search step is asked to visit is a successor of the top
    of the grey stack. *)
Definition entered_from (es : list Edge) (grey : list string) (n : string)
  : Prop :=
  match grey with
  | [] => True
  | p :: _ => In n (successors es p)
  end.

Definition rank_of (w : Workflow) : string -> nat :=
  rank (List.length (nodes w)) (edges w).

Definition node_le (rk : string -> nat) (a b : Node) : Prop :=
  precedes rk (id a) (id b) = true.

Definition occurs_before (a b : string) (l : list string) : Prop :=
  exists l1 l2 l3, l = l1 ++ a :: l2 ++ b :: l3.

Definition is_root (w : Workflow) (n : string) : bool :=
  match predecessors (edges w) n with
  | [] => true
  | _ :: _ => false
  end.

(** ** Invariant of a run *)

Definition is_produced (st : Step) : Prop :=
  exists t, step_result st = Produced t.

(** What holds of every state of a run of a validated workflow that
    started from a fresh Execution: while running, the nodes already
    passed and the pending ones make up the order, the Steps are those
    of the passed nodes that produced one, in that order, and all of
    them succeeded; an output is present only once completed, and then
    it is the text of the last Step. *)
Definition consistent (s : run_state) : Prop :=
  let x := exec s in
  match status x with
  | Queued => steps x = [] /\ final_output x = None
  | Running =>
      final_output x = None
      /\ Forall is_produced (steps x)
      /\ exists done,
           topologicalOrder (snapshot s) = done ++ pending s
           /\ map step_node (steps x)
              = map id (filter (produced_a_step (steps x)) done)
  | Completed =>
      final_output x = text_of (last_of (steps x))
      /\ final_output x
         = match last_producer (topologicalOrder (snapshot s)) (steps x) with
           | Some n => text_of (step_of (steps x) n)
           | None => None
           end
      /\ (steps x <> [] -> exists t, final_output x = Some t)
  | Failed | Canceled => final_output x = None
  end.

(** The request a node's behaviour sends for a given input. *)
Definition request_of (b : Behavior) (n : Node) (inp : string) : request :=
  {| req_model := model n;
     req_instructions := (role_prompt b ++ instructions n)%string;
     req_input := inp |}.

Definition failed_step (n : Node) (r : StepResult) : Step :=
  {| step_node := id n; step_agent := agent_type n; step_result := r |}.

(** ** Sample workflows and environments *)

Local Open Scope string_scope.

Definition agent (i tag m instr : string) : Node :=
  {| id := i; agent_type := tag; model := m; instructions := instr |}.

Definition arrow (s t : string) : Edge :=
  {| edge_id := s ++ "->" ++ t; source := s; target := t; condition := None |}.

Definition node_P : Node := agent "P" "planner" "mistral" "Plan the analysis".
Definition node_E : Node := agent "E" "executor" "llama3" "Carry out the plan".
Definition node_R : Node := agent "R" "reviewer" "qwen2" "Review the result".

(** Planner, executor and reviewer in a chain. *)
Definition review_chain : Workflow :=
  {| workflow_id := "wf-1"; name := "Sales analysis"; description := "";
     nodes := [ node_P; node_E; node_R ];
     edges := [ arrow "P" "E"; arrow "E" "R" ] |}.

(** The same chain, authored in another order. *)
Definition review_chain_shuffled : Workflow :=
  {| workflow_id := "wf-1"; name := "Sales analysis"; description := "";
     nodes := [ node_R; node_P; node_E ];
     edges := [ arrow "E" "R"; arrow "P" "E" ] |}.

(** Two nodes pointing at each other. *)
Definition two_cycle : Workflow :=
  {| workflow_id := "wf-2"; name := "Loop"; description := "";
     nodes := [ agent "A" "planner" "mistral" "";
                agent "B" "executor" "llama3" "" ];
     edges := [ arrow "A" "B"; arrow "B" "A" ] |}.



Definition standard_registry : AgentRegistry :=
  [ ("planner", {| role_prompt := "You are a planner. " |});
    ("executor", {| role_prompt := "You are an executor. " |});
    ("reviewer", {| role_prompt := "You are a reviewer. " |}) ].

(** An environment given by its client and its cancellation flag. *)
Definition env_with (c : ModelClient) (cancelled : nat -> bool) : Env :=
  {| registry := standard_registry; client := c; backoff := 500;
     compose := fun inp _ => inp;
     eval_condition := fun _ _ => true;
     cancel_requested := cancelled |}.

(** A backend that answers every call. *)
Definition healthy : ModelClient :=
  fun _ r => Text ("answer of " ++ req_model r).

(** A backend that cannot be reached for the model [llama3]. *)
Definition llama_down : ModelClient :=
  fun _ r => if String.eqb (req_model r) "llama3" then Fail Unreachable
             else Text ("answer of " ++ req_model r).

(** A backend that does not know the model [llama3]. *)
Definition llama_unknown : ModelClient :=
  fun _ r => if String.eqb (req_model r) "llama3" then Fail InvalidModel
             else Text ("answer of " ++ req_model r).

(** A backend whose second call times out and which answers all others. *)
Definition hiccup : ModelClient :=
  fun k r => if Nat.eqb k 1 then Fail Timeout
             else Text ("answer of " ++ req_model r).

Definition never : nat -> bool := fun _ => false.

(** Cancellation requested once the first node has been passed. *)
Definition after_first : nat -> bool := fun k => Nat.leb 1 k.

(** A run of [review_chain] on the input of the scenarios. *)
Definition scenario_run (env : Env) (moves : nat) : run_state :=
  run env moves
      (start review_chain (create [] review_chain "Analyze sales data" [] 0)).

(** The run against [llama_down], about to dispatch node E. *)
Definition before_E : run_state := scenario_run (env_with llama_down never) 2.

End Engine.

(** * Part II-b. The workflow store, the execution monitor, and
    invariants of canvas sessions *)

(** ** The zustand store, [frontend/src/store/workflowStore.js] *)

Module Store.
Import Canvas.

Record store := {
  workflows : list json;
  selectedWorkflow : option json;
  executions : list json
}.

Definition initial : store :=
  {| workflows := []; selectedWorkflow := None; executions := [] |}.

(** [addWorkflow(workflow)] *)
Definition addWorkflow (w : json) (s : store) : store :=
  {| workflows := workflows s ++ [w];
     selectedWorkflow := selectedWorkflow s;
     executions := executions s |}.

(** [setSelectedWorkflow(workflow)] *)
Definition setSelectedWorkflow (w : option json) (s : store) : store :=
  {| workflows := workflows s; selectedWorkflow := w;
     executions := executions s |}.


(** [addExecution(execution)] *)
Definition addExecution (x : json) (s : store) : store :=
  {| workflows := workflows s; selectedWorkflow := selectedWorkflow s;
     executions := executions s ++ [x] |}.

(** [updateExecutions(executions)] *)
Definition updateExecutions (xs : list json) (s : store) : store :=
  {| workflows := workflows s; selectedWorkflow := selectedWorkflow s;
     executions := xs |}.

(** What the effects of a canvas handler do to the store: only
    [addWorkflow(response.data)] reaches it. *)
Definition absorb (e : effect) (s : store) : store :=
  match e with
  | AddWorkflow data => addWorkflow data s
  | _ => s
  end.

Definition absorb_all (effs : list effect) (s : store) : store :=
  fold_left (fun s e => absorb e s) effs s.

(** The canvas and the store side by side, through a session: every
    action moves the canvas, and the effects of a save reach the store. *)
Definition act (a : action) (cs : canvas * store) : canvas * store :=
  match a with
  | Save response =>
      (fst (saveWorkflow response (fst cs)),
       absorb_all (snd (saveWorkflow response (fst cs))) (snd cs))
  | _ => (perform a (fst cs), snd cs)
  end.

Definition act_all (acts : list action) (cs : canvas * store)
  : canvas * store :=
  fold_left (fun cs a => act a cs) acts cs.

(** The response bodies of the saves of a session that went through:
    the guards passed and the request was answered. *)
Fixpoint saved_bodies (acts : list action) (st : canvas) : list json :=
  match acts with
  | [] => []
  | a :: rest =>
      match a with
      | Save (Some data) =>
          match posted (snd (saveWorkflow (Some data) st)) with
          | [] => []
          | _ :: _ => [data]
          end
      | _ => []
      end ++ saved_bodies rest (perform a st)
  end.

End Store.

(** ** The execution monitor, [frontend/src/components/ExecutionMonitor.js]

    The bodies of the list responses are JSON arrays, as the two list
    endpoints return them. *)

Module Monitor.
Import Canvas.

Record monitor := {
  selectedWorkflow : option json;
  executionInput : jsstring;
  isExecuting : bool;
  workflowExecutions : list json;
  selectedExecution : option json
}.

Definition initial : monitor :=
  {| selectedWorkflow := None; executionInput := []; isExecuting := false;
     workflowExecutions := []; selectedExecution := None |}.

(** Truthiness of a JSON value. *)
Definition truthy_json (j : json) : bool :=
  match j with
  | JNull => false
  | JStr s => truthy s
  | JNum x => negb (PrimFloat.is_zero x || PrimFloat.is_nan x)
  | JArr _ | JObj _ => true
  end.

(** Truthiness of a state variable that is [null], [undefined] or a
    JSON value. *)
Definition present (v : option json) : bool :=
  match v with
  | Some j => truthy_json j
  | None => false
  end.

(** [x.id] of a state variable. *)
Definition id_of (v : option json) : option json :=
  match v with
  | Some j => field "id" j
  | None => None
  end.

Inductive effect :=
| ToastSuccess (msg : string)
| ToastError (msg : string)
| ConsoleError (msg : string)
| GetWorkflows
| GetExecutions (workflowId : option json)
| PostExecute (body : json).

(** The body of the execute request as it is serialized: a key whose
    value is [undefined] is left out. *)
Definition execute_body (sel : option json) (input : jsstring) : json :=
  JObj (match id_of sel with
        | Some v => [("workflow_id"%string, v)]
        | None => []
        end
        ++ [("input"%string, JStr input); ("context"%string, JObj [])]).

(** [loadWorkflowExecutions(workflowId)]; [response] is the body of the
    answer, [None] when the request fails. *)
Definition loadWorkflowExecutions (workflowId : option json)
    (response : option (list json)) (st : monitor)
  : monitor * list effect :=
  match response with
  | Some data =>
      ({| selectedWorkflow := selectedWorkflow st;
          executionInput := executionInput st;
          isExecuting := isExecuting st;
          workflowExecutions := data;
          selectedExecution := selectedExecution st |},
       [GetExecutions workflowId])
  | None =>
      (st, [GetExecutions workflowId;
            ConsoleError "Error loading executions:"])
  end.


(** [w.id === value] *)
Definition has_id (value : jsstring) (w : json) : bool :=
  match field "id" w with
  | Some (JStr i) => str_eqb i value
  | _ => false
  end.

(** [workflows.find((w) => w.id === value)].  On [null] the access
    [w.id] throws; the outer [None] stands for that. *)
Fixpoint find_workflow (value : jsstring) (ws : list json)
  : option (option json) :=
  match ws with
  | [] => Some None
  | JNull :: _ => None
  | w :: rest => if has_id value w then Some (Some w) else find_workflow value rest
  end.

(** The [onValueChange] handler of the workflow selector; when the
    search throws, no setter is reached. *)
Definition chooseWorkflow (value : jsstring) (ms : monitor * Store.store)
  : monitor :=
  let (st, s) := ms in
  match find_workflow value (Store.workflows s) with
  | Some found =>
      {| selectedWorkflow := found;
         executionInput := executionInput st;
         isExecuting := isExecuting st;
         workflowExecutions := workflowExecutions st;
         selectedExecution := selectedExecution st |}
  | None => st
  end.

Definition setExecutionInput (v : jsstring) (st : monitor) : monitor :=
  {| selectedWorkflow := selectedWorkflow st;
     executionInput := v;
     isExecuting := isExecuting st;
     workflowExecutions := workflowExecutions st;
     selectedExecution := selectedExecution st |}.

(** [executeWorkflow()].  [response] is the outcome of the awaited
    execute request and [listing] that of the list request issued after
    a success; the state returned is the one reached when both have
    settled. *)
Definition executeWorkflow (response : option json)
    (listing : option (list json)) (st : monitor) : monitor * list effect :=
  if negb (present (selectedWorkflow st)) then
    (st, [ToastError "Please select a workflow"])
  else if negb (truthy (trim (executionInput st))) then
    (st, [ToastError "Please enter input for the workflow"])
  else
    let request :=
      PostExecute (execute_body (selectedWorkflow st) (executionInput st)) in
    match response with
    | Some data =>
        let shown :=
          {| selectedWorkflow := selectedWorkflow st;
             executionInput := executionInput st;
             isExecuting := true;
             workflowExecutions := workflowExecutions st;
             selectedExecution := Some data |} in
        let (listed, effs) :=
          loadWorkflowExecutions (id_of (selectedWorkflow st)) listing shown in
        ({| selectedWorkflow := selectedWorkflow listed;
            executionInput := [];
            isExecuting := false;
            workflowExecutions := workflowExecutions listed;
            selectedExecution := selectedExecution listed |},
         [request; ToastSuccess "Workflow executed successfully!"] ++ effs)
    | None =>
        ({| selectedWorkflow := selectedWorkflow st;
            executionInput := executionInput st;
            isExecuting := false;
            workflowExecutions := workflowExecutions st;
            selectedExecution := selectedExecution st |},
         [request; ConsoleError "Error executing workflow:";
          ToastError "Failed to execute workflow"])
    end.

(** The execute requests among a list of effects. *)
Fixpoint executed (effs : list effect) : list json :=
  match effs with
  | [] => []
  | PostExecute body :: rest => body :: executed rest
  | _ :: rest => executed rest
  end.

Inductive icon := CheckCircle | XCircle | Loader2 | Clock.

Definition is_status (name : string) (status : option json) : bool :=
  match status with
  | Some (JStr s) => str_eqb s (js name)
  | _ => false
  end.

(** [getStatusIcon(status)] *)
Definition getStatusIcon (status : option json) : icon :=
  if is_status "completed" status then CheckCircle
  else if is_status "failed" status then XCircle
  else if is_status "running" status then Loader2
  else Clock.

(** [getStatusColor(status)] *)
Definition getStatusColor (status : option json) : string :=
  if is_status "completed" status then "bg-emerald-600/20 text-emerald-300"
  else if is_status "failed" status then "bg-red-600/20 text-red-300"
  else if is_status "running" status then "bg-blue-600/20 text-blue-300"
  else "bg-yellow-600/20 text-yellow-300".

(** The colour class that goes with an icon. *)
Definition colour_of_icon (i : icon) : string :=
  match i with
  | CheckCircle => "bg-emerald-600/20 text-emerald-300"
  | XCircle => "bg-red-600/20 text-red-300"
  | Loader2 => "bg-blue-600/20 text-blue-300"
  | Clock => "bg-yellow-600/20 text-yellow-300"
  end.

(** ** Sample monitor states *)

Definition sample_workflow (i : string) : json :=
  JObj [ ("id"%string, JStr (js i)); ("name"%string, JStr (js "Demo")) ].

Definition ready_monitor : monitor :=
  {| selectedWorkflow := Some (sample_workflow "wf-1");
     executionInput := js " Analyze sales data ";
     isExecuting := false;
     workflowExecutions := [];
     selectedExecution := None |}.

Definition sample_store : Store.store :=
  {| Store.workflows := [sample_workflow "wf-1"; sample_workflow "wf-2";
                         sample_workflow "wf-2"];
     Store.selectedWorkflow := None;
     Store.executions := [] |}.

End Monitor.

(** ** Invariants of canvas sessions *)

Module CanvasInvariants.
Import Canvas.

(** Every edge joins two nodes of the list. *)
Definition well_connected (nds : list node) (eds : list edge) : Prop :=
  forall e, In e eds ->
    In (source e) (map node_id nds) /\ In (target e) (map node_id nds).

(** A session in which React Flow hands over edges between nodes of the
    canvas only, and removes a node only once no edge uses it. *)
Fixpoint tidy (acts : list action) (st : canvas) : Prop :=
  match acts with
  | [] => True
  | a :: rest =>
      match a with
      | NodesChange keep _ => well_connected (filter keep (nodes st)) (edges st)
      | EdgesChange eds => well_connected (nodes st) eds
      | _ => True
      end /\ tidy rest (perform a st)
  end.

(** A session in which the two selectors of the panel and the node
    buttons only hand over non-empty values, as the options listed in
    the component are. *)
Fixpoint filled (acts : list action) : Prop :=
  match acts with
  | [] => True
  | a :: rest =>
      match a with
      | SelectModel s => s <> []
      | SelectAgentType s => s <> []
      | AddNode _ _ _ type => type <> []
      | _ => True
      end /\ filled rest
  end.

Definition run_from (acts : list action) (st : canvas) : canvas :=
  fold_left (fun st a => perform a st) acts st.

(** The agent configuration of a node. *)
Definition settings (n : node) : jsstring * jsstring * jsstring :=
  (agentType (node_data_of n), model (node_data_of n),
   instructions (node_data_of n)).

(** A node is left as it is, or, when it has the selected id, takes the
    panel's values and keeps its id, type and position. *)
Definition updated_from (st : canvas) (sel : node) (n n' : node) : Prop :=
  node_id n' = node_id n
  /\ node_type n' = node_type n
  /\ node_position n' = node_position n
  /\ (node_id n <> node_id sel -> n' = n)
  /\ (node_id n = node_id sel ->
      settings n' = (selectedAgentType st, selectedModel st, nodeInstructions st)).

Definition blank (s : jsstring) : bool := forallb is_white_space s.

(** Every node has an agent type and a model, and so has the panel. *)
Definition configured (st : canvas) : Prop :=
  Forall (fun n => agentType (node_data_of n) <> []
                   /\ model (node_data_of n) <> []) (nodes st)
  /\ selectedAgentType st <> [] /\ selectedModel st <> [].

(** A session with two nodes added, a connection, a click on the first
    node, an edit of the panel, an update, a drag and a name. *)
Definition sample_session : list action :=
  [ AddNode 1700000000000 0.5 0.25 (js "planner");
    AddNode 1700000000007 0.75 0.5 (js "executor");
    EdgesChange [ {| edge_id := js "e1";
                     source := id_at 1700000000000;
                     target := id_at 1700000000007 |} ];
    NodeClick (hd (sample_node "x")
                  (nodes (addNode 1700000000000 0.5 0.25 (js "planner") initial)));
    SelectModel (js "llama3");
    UpdateSelected;
    NodesChange (fun _ => true) (fun _ => {| pos_x := 10; pos_y := 20 |});
    SetName (js "Two agents") ].

End CanvasInvariants.

(** * Part III. Properties of the editor *)

Module CanvasProofs.
Import Canvas.

Lemma str_eqb_eq (a b : jsstring) : str_eqb a b = true <-> a = b.
Proof.
  revert b; induction a as [|x a IH]; intros [|y b]; simpl;
    try (split; [discriminate | discriminate]); try tauto.
  rewrite andb_true_iff, N.eqb_eq, IH.
  split; [intros [-> ->]; reflexivity | intros H; inversion H; auto].
Qed.

Lemma str_eqb_refl (a : jsstring) : str_eqb a a = true.
Proof. apply str_eqb_eq; reflexivity. Qed.

Lemma str_eqb_neq (a b : jsstring) : str_eqb a b = false <-> a <> b.
Proof.
  rewrite <- str_eqb_eq. destruct (str_eqb a b); split; congruence.
Qed.

(** Every request [saveWorkflow] issues carries [workflowData] of the
    state it was called in, and it issues at most one. *)
Lemma posted_saveWorkflow (response : option json) (st : canvas) :
  posted (snd (saveWorkflow response st)) = [] \/
  posted (snd (saveWorkflow response st)) = [workflowData st].
Proof.
  unfold saveWorkflow.
  destruct (negb (truthy (trim (workflowName st)))); [left; reflexivity|].
  destruct (Nat.eqb (List.length (nodes st)) 0); [left; reflexivity|].
  destruct response; right; reflexivity.
Qed.

Lemma posted_is_workflowData response st p :
  In p (posted (snd (saveWorkflow response st))) -> p = workflowData st.
Proof.
  destruct (posted_saveWorkflow response st) as [E|E]; rewrite E; simpl.
  - tauto.
  - intros [H|[]]; auto.
Qed.

Lemma request_form_workflowData (st : canvas) : request_form (workflowData st).
Proof.
  unfold request_form, workflowData, array_field; simpl.
  split; [|split].
  - eexists; split; [reflexivity|]. simpl. apply Permutation_refl.
  - intros n Hn. apply in_map_iff in Hn as [x [<- _]].
    eexists; split; [reflexivity|]. simpl. apply Permutation_refl.
  - intros e He. apply in_map_iff in He as [x [<- _]].
    eexists; split; [reflexivity|]. simpl. apply Permutation_refl.
Qed.

Lemma has_fields_In ks j k :
  has_fields ks j -> In k (keys j) -> In k ks.
Proof.
  intros [fields [-> HP]] Hk. simpl in Hk.
  eapply Permutation_in; eauto.
Qed.

(** C6, as worded, fails: the body sent for [one_node_canvas] has no
    top-level [id], and its node object carries [type] and [position]
    besides the four listed fields. *)
Lemma saved_payload_not_persisted_form :
  In (workflowData one_node_canvas)
     (posted (snd (saveWorkflow None one_node_canvas)))
  /\ ~ persisted_form (workflowData one_node_canvas).
Proof.
  split.
  - vm_compute. left; reflexivity.
  - intros [_ [Hnodes _]].
    assert (Hn : In (node_payload (hd (sample_node "x") (nodes one_node_canvas)))
                    (array_field "nodes" (workflowData one_node_canvas))).
    { left; reflexivity. }
    apply Hnodes in Hn.
    apply has_fields_In with (k := "type"%string) in Hn.
    + simpl in Hn. repeat (destruct Hn as [Hn|Hn]; [discriminate Hn|]). exact Hn.
    + simpl. right; left; reflexivity.
Qed.

(** C6 (amended): every body [saveWorkflow] sends is an object with
    exactly the fields [name], [description], [nodes], [edges]; each
    element of [nodes] has exactly the fields [id], [type], [agent_type],
    [model], [instructions], [position] and each element of [edges]
    exactly [id], [source], [target], [condition]. *)
Theorem saved_payload_request_form (response : option json) (st : canvas)
    (p : json) :
  In p (posted (snd (saveWorkflow response st))) ->
  p = workflowData st /\ request_form p.
Proof.
  intros Hp. apply posted_is_workflowData in Hp. subst p.
  split; [reflexivity | apply request_form_workflowData].
Qed.

Lemma saved_payload_request_form_witness :
  In (workflowData one_node_canvas)
     (posted (snd (saveWorkflow None one_node_canvas)))
  /\ request_form (workflowData one_node_canvas).
Proof.
  assert (H : In (workflowData one_node_canvas)
                 (posted (snd (saveWorkflow None one_node_canvas)))).
  { vm_compute. left; reflexivity. }
  split; [exact H|].
  exact (proj2 (saved_payload_request_form None one_node_canvas _ H)).
Defined.

(** C7: in every body [saveWorkflow] sends, the [condition] field of
    every edge object is [null]; and the engine traverses an edge that
    has no condition whatever the context. *)
Theorem saved_edges_condition_null (response : option json) (st : canvas)
    (p e : json) :
  In p (posted (snd (saveWorkflow response st))) ->
  In e (array_field "edges" p) ->
  field "condition" e = Some JNull
  /\ forall env ctx ed,
       Engine.condition ed = None -> Engine.edge_open env ctx ed = true.
Proof.
  intros Hp He. apply posted_is_workflowData in Hp. subst p.
  unfold workflowData, array_field in He. simpl in He.
  apply in_map_iff in He as [x [<- _]]. split; [reflexivity|].
  intros env ctx ed H. unfold Engine.edge_open. rewrite H. reflexivity.
Qed.

Lemma saved_edges_condition_null_witness :
  field "condition" (edge_payload (sample_edge "node-1" "node-2"))
  = Some JNull.
Proof.
  apply (saved_edges_condition_null (Some JNull) chain_canvas
           (workflowData chain_canvas)).
  - vm_compute. left; reflexivity.
  - vm_compute. left; reflexivity.
Defined.

(** ** Node ids and the clock *)

Lemma js_inj (a b : string) : js a = js b -> a = b.
Proof.
  unfold js. intros H.
  rewrite <- (string_of_list_ascii_of_string a),
          <- (string_of_list_ascii_of_string b).
  f_equal. revert H.
  generalize (list_ascii_of_string a) (list_ascii_of_string b).
  intros l; induction l as [|x l IH]; intros [|y m]; simpl; try discriminate.
  - reflexivity.
  - intros H. inversion H as [[Hx Hl]]. f_equal; [|apply IH; exact Hl].
    rewrite <- (ascii_N_embedding x), <- (ascii_N_embedding y), Hx. reflexivity.
Qed.

Lemma decimal_inj (a b : N) : decimal a = decimal b -> a = b.
Proof.
  unfold decimal. intros H. apply js_inj in H.
  apply DecimalN.Unsigned.to_uint_inj.
  assert (Na : N.to_uint a <> Decimal.Nil).
  { destruct a; [discriminate | apply DecimalPos.Unsigned.to_uint_nonnil]. }
  assert (Nb : N.to_uint b <> Decimal.Nil).
  { destruct b; [discriminate | apply DecimalPos.Unsigned.to_uint_nonnil]. }
  pose proof (NilZero.usu _ Na) as Ua. pose proof (NilZero.usu _ Nb) as Ub.
  rewrite H in Ua. congruence.
Qed.

Lemma id_at_inj (a b : N) : id_at a = id_at b -> a = b.
Proof.
  unfold id_at. intros H. apply app_inv_head in H. apply decimal_inj; exact H.
Qed.

Lemma session_snoc (acts : list action) (a : action) :
  session (acts ++ [a]) = perform a (session acts).
Proof. unfold session. rewrite fold_left_app. reflexivity. Qed.

Lemma clock_readings_snoc (acts : list action) (a : action) :
  clock_readings (acts ++ [a])
  = clock_readings acts ++ clock_readings [a].
Proof.
  induction acts as [|b acts IH]; [reflexivity|].
  destruct b; simpl; rewrite ?IH; reflexivity.
Qed.

Lemma ids_addNode (now : N) (r1 r2 : float) (type : jsstring) (st : canvas) :
  map node_id (nodes (addNode now r1 r2 type st))
  = map node_id (nodes st) ++ [id_at now].
Proof. unfold addNode. simpl. rewrite map_app. reflexivity. Qed.

Lemma NoDup_snoc (l : list jsstring) (a : jsstring) :
  NoDup l -> ~ In a l -> NoDup (l ++ [a]).
Proof.
  intros ND Hni. induction l as [|x l IH]; simpl.
  - constructor; [intros [] | constructor].
  - inversion ND as [|? ? Hx ND']; subst. constructor.
    + intros H. apply in_app_or in H as [H|[H|[]]]; [contradiction|].
      apply Hni. left; symmetry; exact H.
    + apply IH; [exact ND'|]. intros H. apply Hni. right; exact H.
Qed.

Lemma ids_updateSelectedNode (st : canvas) :
  map node_id (nodes (fst (updateSelectedNode st))) = map node_id (nodes st).
Proof.
  unfold updateSelectedNode. destruct (selectedNode st) as [sel|]; [|reflexivity].
  simpl. rewrite map_map. apply map_ext. intros n.
  destruct (str_eqb (node_id n) (node_id sel)); reflexivity.
Qed.

Lemma sub_ids_NoDup (keep : node -> bool) (l : list node) :
  NoDup (map node_id l) -> NoDup (map node_id (filter keep l)).
Proof.
  induction l as [|a l IH]; simpl; intros ND; [constructor|].
  inversion ND as [|? ? Hni ND']; subst.
  destruct (keep a); simpl; [|apply IH; exact ND'].
  constructor; [|apply IH; exact ND'].
  intros H. apply Hni. apply in_map_iff in H as [x [E Hx]].
  apply filter_In in Hx as [Hx _]. rewrite <- E. apply in_map; exact Hx.
Qed.

Lemma sub_ids_incl (keep : node -> bool) (l : list node) :
  incl (map node_id (filter keep l)) (map node_id l).
Proof.
  intros i Hi. apply in_map_iff in Hi as [x [E Hx]].
  apply filter_In in Hx as [Hx _]. rewrite <- E. apply in_map; exact Hx.
Qed.

(** The node ids of a session are those of its clock readings, and no
    two nodes share one as long as no two [addNode] calls read the same
    clock value. *)
Lemma session_ids (acts : list action) :
  NoDup (clock_readings acts) ->
  NoDup (map node_id (nodes (session acts)))
  /\ incl (map node_id (nodes (session acts)))
          (map id_at (clock_readings acts)).
Proof.
  induction acts as [|a acts IH] using rev_ind.
  - intros _. split; [constructor | intros x []].
  - rewrite clock_readings_snoc, session_snoc. intros ND.
    assert (ND0 : NoDup (clock_readings acts)).
    { apply NoDup_app_remove_r in ND. exact ND. }
    destruct (IH ND0) as [U I]. clear IH.
    assert (Hsame : forall st', map node_id (nodes st')
                                = map node_id (nodes (session acts)) ->
              NoDup (map node_id (nodes st'))
              /\ incl (map node_id (nodes st'))
                      (map id_at (clock_readings acts ++ clock_readings [a]))).
    { intros st' E. rewrite E. split; [exact U|].
      intros x Hx. rewrite map_app. apply in_or_app. left. apply I; exact Hx. }
    assert (Hsub : forall keep st',
              map node_id (nodes st')
              = map node_id (filter keep (nodes (session acts))) ->
              NoDup (map node_id (nodes st'))
              /\ incl (map node_id (nodes st'))
                      (map id_at (clock_readings acts ++ clock_readings [a]))).
    { intros keep st' E. rewrite E. split; [apply sub_ids_NoDup; exact U|].
      intros x Hx. rewrite map_app. apply in_or_app. left. apply I.
      apply (sub_ids_incl keep); exact Hx. }
    destruct a; simpl perform; try (apply Hsame; reflexivity).
    + simpl clock_readings in *. rewrite ids_addNode. split.
      * apply NoDup_snoc; [exact U|].
        intros Hin. apply I in Hin.
        apply in_map_iff in Hin as [t [Et Ht]]. apply id_at_inj in Et. subst t.
        apply NoDup_remove_2 in ND. rewrite app_nil_r in ND. contradiction.
      * rewrite map_app. simpl. intros x Hx. apply in_app_or in Hx as [Hx|Hx].
        -- apply in_or_app. left. apply I; exact Hx.
        -- apply in_or_app. right. exact Hx.
    + apply Hsame. apply ids_updateSelectedNode.
    + unfold deleteSelectedNode.
      destruct (selectedNode (session acts)) as [sel|];
        [|apply Hsame; reflexivity].
      eapply Hsub. reflexivity.
    + unfold saveWorkflow.
      destruct (negb (truthy (trim (workflowName (session acts)))));
        [apply Hsame; reflexivity|].
      destruct (Nat.eqb (List.length (nodes (session acts))) 0);
        [apply Hsame; reflexivity|].
      destruct response; [|apply Hsame; reflexivity].
      simpl. split; [constructor | intros x []].
    + apply (Hsub keep). simpl. rewrite map_map. reflexivity.
Qed.

(** C8 fails on the code: two [addNode] calls that read the same
    [Date.now()] value give both nodes the same id, and the body saved
    from that canvas lists the id twice. *)
Theorem addNode_same_clock_duplicate_id :
  let st := addNode 1700000000000 0.75 0.5 (js "executor")
              (addNode 1700000000000 0.5 0.25 (js "planner") initial) in
  map node_id (nodes st)
    = [js "node-1700000000000"; js "node-1700000000000"]
  /\ ~ NoDup (map node_id (nodes st))
  /\ payload_node_ids
        (workflowData (set_nodes chain_canvas (nodes st)))
      = [Some (JStr (js "node-1700000000000"));
         Some (JStr (js "node-1700000000000"))].
Proof.
  split; [vm_compute; reflexivity | split].
  - intros H. inversion H as [|x l Hx _]; subst. apply Hx. left; reflexivity.
  - vm_compute; reflexivity.
Qed.

(** C9: after [deleteSelectedNode] has run with a node selected, no
    remaining edge has the deleted node's id as source or target, no
    remaining node has that id, and edges that referred to nodes of the
    canvas still do. *)
Theorem deleteSelectedNode_no_dangling (st : canvas) (sel : node) :
  selectedNode st = Some sel ->
  let st' := fst (deleteSelectedNode st) in
  (forall e, In e (edges st') ->
     In e (edges st) /\ source e <> node_id sel /\ target e <> node_id sel)
  /\ (forall n, In n (nodes st') -> In n (nodes st) /\ node_id n <> node_id sel)
  /\ ((forall e, In e (edges st) ->
         In (source e) (map node_id (nodes st)) /\
         In (target e) (map node_id (nodes st))) ->
      forall e, In e (edges st') ->
         In (source e) (map node_id (nodes st')) /\
         In (target e) (map node_id (nodes st'))).
Proof.
  intros Hsel st'. subst st'. unfold deleteSelectedNode. rewrite Hsel. simpl.
  assert (HE : forall e,
            In e (filter (fun e => negb (str_eqb (source e) (node_id sel))
                                   && negb (str_eqb (target e) (node_id sel)))
                         (edges st)) ->
            In e (edges st) /\ source e <> node_id sel /\ target e <> node_id sel).
  { intros e He. apply filter_In in He as [Hin Hb].
    apply andb_true_iff in Hb as [Hs Ht].
    apply negb_true_iff in Hs, Ht. apply str_eqb_neq in Hs, Ht. auto. }
  split; [exact HE | split].
  - intros n Hn. apply filter_In in Hn as [Hin Hb].
    apply negb_true_iff, str_eqb_neq in Hb. auto.
  - intros Hwf e He. destruct (HE e He) as [Hin [Hs Ht]].
    destruct (Hwf e Hin) as [Hsrc Htgt].
    assert (keep : forall i, In i (map node_id (nodes st)) -> i <> node_id sel ->
              In i (map node_id
                      (filter (fun n => negb (str_eqb (node_id n) (node_id sel)))
                              (nodes st)))).
    { intros i Hi Hne. apply in_map_iff in Hi as [n [<- Hn]].
      apply in_map, filter_In. split; [exact Hn|].
      apply negb_true_iff, str_eqb_neq; exact Hne. }
    split; apply keep; assumption.
Qed.

Lemma deleteSelectedNode_no_dangling_witness :
  edges (fst (deleteSelectedNode chain_canvas))
    = [sample_edge "node-2" "node-3"]
  /\ In (sample_edge "node-2" "node-3") (edges chain_canvas)
  /\ source (sample_edge "node-2" "node-3") <> js "node-1"
  /\ target (sample_edge "node-2" "node-3") <> js "node-1".
Proof.
  split; [vm_compute; reflexivity|].
  apply (proj1 (deleteSelectedNode_no_dangling chain_canvas _ eq_refl)).
  vm_compute. left; reflexivity.
Defined.

(** C10: when the workflow name is empty after trimming, or the node
    list is empty, [saveWorkflow] leaves the canvas state as it was and
    issues neither a save request nor a store update. *)
Theorem saveWorkflow_guard (response : option json) (st : canvas) :
  trim (workflowName st) = [] \/ nodes st = [] ->
  fst (saveWorkflow response st) = st
  /\ posted (snd (saveWorkflow response st)) = []
  /\ exists msg, snd (saveWorkflow response st) = [ToastError msg].
Proof.
  intros H. unfold saveWorkflow.
  destruct (trim (workflowName st)) as [|c t] eqn:Etrim; simpl.
  - repeat split; eauto.
  - destruct H as [H|H]; [discriminate H|]. rewrite H. simpl.
    repeat split; eauto.
Qed.

Lemma saveWorkflow_guard_witness :
  fst (saveWorkflow (Some JNull) blank_name_canvas) = blank_name_canvas
  /\ posted (snd (saveWorkflow (Some JNull) blank_name_canvas)) = []
  /\ exists msg, snd (saveWorkflow (Some JNull) blank_name_canvas)
                 = [ToastError msg].
Proof.
  apply (saveWorkflow_guard (Some JNull) blank_name_canvas).
  left. vm_compute. reflexivity.
Defined.

End CanvasProofs.

(** * Part IV. Properties of the engine *)

Module EngineProofs.
Import Engine.

(** ** Membership and the two list checks *)

Lemma mem_In (x : string) (l : list string) : mem x l = true <-> In x l.
Proof.
  unfold mem. rewrite existsb_exists. split.
  - intros [y [Hy E]]. apply String.eqb_eq in E. subst; exact Hy.
  - intros H. exists x. split; [exact H | apply String.eqb_refl].
Qed.

Lemma mem_not_In (x : string) (l : list string) : mem x l = false <-> ~ In x l.
Proof.
  rewrite <- mem_In. destruct (mem x l); split; congruence.
Qed.

Lemma first_duplicate_None (seen ids : list string) :
  first_duplicate seen ids = None <->
  NoDup ids /\ (forall x, In x ids -> ~ In x seen).
Proof.
  revert seen; induction ids as [|i ids IH]; intros seen; simpl.
  - split; [intros _; split; [constructor | tauto] | reflexivity].
  - destruct (mem i seen) eqn:E.
    + apply mem_In in E. split; [discriminate|].
      intros [_ H]. exfalso. apply (H i); auto.
    + apply mem_not_In in E. rewrite IH. split.
      * intros [ND H]. split.
        -- constructor; [|exact ND]. intros Hi. apply (H i Hi). left; reflexivity.
        -- intros x [<-|Hx]; [exact E|]. intros Hs. apply (H x Hx). right; exact Hs.
      * intros [ND H]. inversion ND as [|? ? Hni ND']; subst. split; [exact ND'|].
        intros x Hx [<-|Hs]; [contradiction|]. apply (H x); auto.
Qed.

Lemma unique_ids_iff (w : Workflow) :
  first_duplicate [] (node_ids w) = None <-> unique_ids w.
Proof.
  rewrite first_duplicate_None. unfold unique_ids. split; [tauto|].
  intros H; split; [exact H | intros x _ []].
Qed.

Lemma no_dangling_iff (w : Workflow) :
  first_dangling (node_ids w) (edges w) = None <-> no_dangling w.
Proof.
  unfold first_dangling, no_dangling. split.
  - intros H e He. pose proof (find_none _ _ H e He) as Hb. simpl in Hb.
    apply negb_false_iff, andb_true_iff in Hb as [Hs Ht].
    split; apply mem_In; assumption.
  - intros H. destruct (find _ (edges w)) as [e|] eqn:F; [|reflexivity].
    apply find_some in F as [He Hb]. destruct (H e He) as [Hs Ht].
    apply mem_In in Hs, Ht. rewrite Hs, Ht in Hb. discriminate.
Qed.

Lemma successors_In (es : list Edge) (e : Edge) :
  In e es -> In (target e) (successors es (source e)).
Proof.
  intros He. unfold successors. apply in_map, filter_In.
  split; [exact He | apply String.eqb_refl].
Qed.

Lemma In_successors (es : list Edge) (u v : string) :
  In v (successors es u) <-> exists e, In e es /\ source e = u /\ target e = v.
Proof.
  unfold successors. rewrite in_map_iff. split.
  - intros [e [Ht He]]. apply filter_In in He as [He Hs].
    apply String.eqb_eq in Hs. eauto.
  - intros [e [He [Hs Ht]]]. exists e. split; [exact Ht|].
    apply filter_In. split; [exact He|]. apply String.eqb_eq; exact Hs.
Qed.

Lemma In_predecessors (es : list Edge) (u v : string) :
  In u (predecessors es v) <-> exists e, In e es /\ source e = u /\ target e = v.
Proof.
  unfold predecessors. rewrite in_map_iff. split.
  - intros [e [Hs He]]. apply filter_In in He as [He Ht].
    apply String.eqb_eq in Ht. eauto.
  - intros [e [He [Hs Ht]]]. exists e. split; [exact Hs|].
    apply filter_In. split; [exact He|]. apply String.eqb_eq; exact Ht.
Qed.

(** ** The order on node ids *)

Lemma leb_iff (a b : string) :
  (a <=? b)%string = true <-> a = b \/ String_as_OT.lt a b.
Proof.
  unfold String.leb. destruct (String.compare a b) eqn:C.
  - apply String_as_OT.cmp_eq in C. tauto.
  - apply String_as_OT.cmp_lt in C. tauto.
  - split; [discriminate|]. intros [E|L].
    + apply String_as_OT.cmp_eq in E. unfold String_as_OT.cmp in E. congruence.
    + apply String_as_OT.cmp_lt in L. unfold String_as_OT.cmp in L. congruence.
Qed.

Lemma ltb_iff (a b : string) :
  (a <? b)%string = true <-> String_as_OT.lt a b.
Proof.
  unfold String.ltb. destruct (String.compare a b) eqn:C.
  - split; [discriminate|]. intros L.
    apply String_as_OT.cmp_lt in L. unfold String_as_OT.cmp in L. congruence.
  - apply String_as_OT.cmp_lt in C. tauto.
  - split; [discriminate|]. intros L.
    apply String_as_OT.cmp_lt in L. unfold String_as_OT.cmp in L. congruence.
Qed.

Lemma leb_trans (a b c : string) :
  (a <=? b)%string = true -> (b <=? c)%string = true -> (a <=? c)%string = true.
Proof.
  rewrite !leb_iff. intros [->|L1] [->|L2]; auto.
  right. eapply String_as_OT.lt_trans; eauto.
Qed.

Lemma ltb_leb (a b : string) : (a <? b)%string = true -> (b <=? a)%string = false.
Proof.
  intros L. destruct (b <=? a)%string eqn:E; [|reflexivity]. exfalso.
  apply ltb_iff in L. apply leb_iff in E as [->|G].
  - apply (String_as_OT.lt_not_eq a a L). reflexivity.
  - apply (String_as_OT.lt_not_eq a a); [|reflexivity].
    eapply String_as_OT.lt_trans; eauto.
Qed.

Section Precedes.
Variable rk : string -> nat.

Lemma precedes_spec (a b : string) :
  precedes rk a b = true <->
  rk a < rk b \/ (rk a = rk b /\ (a <=? b)%string = true).
Proof.
  unfold precedes.
  rewrite orb_true_iff, andb_true_iff, Nat.ltb_lt, Nat.eqb_eq. tauto.
Qed.

Lemma precedes_total (a b : string) :
  precedes rk a b = false -> precedes rk b a = true.
Proof.
  intros H. apply precedes_spec.
  destruct (Nat.lt_trichotomy (rk a) (rk b)) as [L|[E|G]].
  - assert (T : precedes rk a b = true) by (apply precedes_spec; auto). congruence.
  - right. split; [auto|].
    destruct (String.leb_total a b) as [T|T]; [|exact T].
    assert (T' : precedes rk a b = true) by (apply precedes_spec; auto). congruence.
  - left; exact G.
Qed.

Lemma precedes_trans (a b c : string) :
  precedes rk a b = true -> precedes rk b c = true -> precedes rk a c = true.
Proof.
  rewrite !precedes_spec. intros [L1|[E1 T1]] [L2|[E2 T2]];
    try (left; lia).
  right. split; [lia|]. eapply leb_trans; eauto.
Qed.

Lemma precedes_antisym (a b : string) :
  precedes rk a b = true -> precedes rk b a = true -> a = b.
Proof.
  rewrite !precedes_spec. intros [L1|[E1 T1]] [L2|[E2 T2]]; try lia.
  apply String.leb_antisym; assumption.
Qed.

(** ** Insertion sort of the nodes *)

Lemma insert_perm (x : Node) (l : list Node) :
  Permutation (insert rk x l) (x :: l).
Proof.
  induction l as [|y l IH]; simpl; [apply Permutation_refl|].
  destruct (precedes rk (id x) (id y)); [apply Permutation_refl|].
  eapply perm_trans; [apply perm_skip; exact IH | apply perm_swap].
Qed.

Lemma sort_nodes_perm (l : list Node) : Permutation (sort_nodes rk l) l.
Proof.
  induction l as [|x l IH]; simpl; [constructor|].
  eapply perm_trans; [apply insert_perm | apply perm_skip; exact IH].
Qed.

Lemma insert_sorted (x : Node) (l : list Node) :
  StronglySorted (node_le rk) l -> StronglySorted (node_le rk) (insert rk x l).
Proof.
  induction l as [|y l IH]; simpl; intros Hs.
  - constructor; constructor.
  - inversion Hs as [|? ? Hs' Hall]; subst.
    destruct (precedes rk (id x) (id y)) eqn:P.
    + constructor; [exact Hs|]. constructor; [exact P|].
      eapply Forall_impl; [|exact Hall]. intros z Hz.
      unfold node_le in *. eapply precedes_trans; eauto.
    + constructor; [apply IH; exact Hs'|].
      eapply Permutation_Forall; [apply Permutation_sym, insert_perm|].
      constructor; [apply precedes_total; exact P | exact Hall].
Qed.

Lemma sort_nodes_sorted (l : list Node) :
  StronglySorted (node_le rk) (sort_nodes rk l).
Proof.
  induction l as [|x l IH]; simpl; [constructor | apply insert_sorted; exact IH].
Qed.

End Precedes.

(** Two sorted lists with the same elements are equal when the order
    is antisymmetric on them. *)
Lemma sorted_perm_eq {A : Type} (R : A -> A -> Prop) (l l' : list A) :
  (forall x y, In x l -> In y l -> R x y -> R y x -> x = y) ->
  StronglySorted R l -> StronglySorted R l' -> Permutation l l' -> l = l'.
Proof.
  revert l'; induction l as [|a t IH]; intros l' Hanti Hs Hs' Hp.
  - apply Permutation_nil in Hp. congruence.
  - destruct l' as [|b t'].
    + apply Permutation_sym, Permutation_nil in Hp. discriminate.
    + inversion Hs as [|? ? Hst Ha]; subst.
      inversion Hs' as [|? ? Hst' Hb]; subst.
      assert (E : a = b).
      { assert (Hab : In a (b :: t')).
        { eapply Permutation_in; [exact Hp | left; reflexivity]. }
        assert (Hba : In b (a :: t)).
        { eapply Permutation_in; [apply Permutation_sym; exact Hp | left; reflexivity]. }
        destruct Hab as [E|Hab]; [congruence|].
        destruct Hba as [E|Hba]; [congruence|].
        rewrite Forall_forall in Ha, Hb.
        apply Hanti; [left; reflexivity | right; exact Hba | auto | auto]. }
      subst b. f_equal. apply IH; auto.
      * intros x y Hx Hy. apply Hanti; right; assumption.
      * eapply Permutation_cons_inv; exact Hp.
Qed.

(** Of two different elements of a list one occurs before the other,
    and in a sorted list the earlier one is the smaller. *)
Lemma In_two_split {A : Type} (a b : A) (l : list A) :
  In a l -> In b l -> a <> b ->
  (exists l1 l2 l3, l = l1 ++ a :: l2 ++ b :: l3) \/
  (exists l1 l2 l3, l = l1 ++ b :: l2 ++ a :: l3).
Proof.
  intros Ha Hb Hne. apply in_split in Ha as [l1 [l2 ->]].
  apply in_app_or in Hb as [Hb|[Hb|Hb]]; [|congruence|].
  - right. apply in_split in Hb as [m1 [m2 ->]].
    exists m1, m2, l2. rewrite <- app_assoc. reflexivity.
  - left. apply in_split in Hb as [m1 [m2 ->]].
    exists l1, m1, m2. reflexivity.
Qed.

Lemma sorted_split {A : Type} (R : A -> A -> Prop) (a b : A) (l1 l2 l3 : list A) :
  StronglySorted R (l1 ++ a :: l2 ++ b :: l3) -> R a b.
Proof.
  induction l1 as [|x l1 IH]; simpl; intros Hs.
  - inversion Hs as [|? ? _ Hall]; subst. rewrite Forall_forall in Hall.
    apply Hall. apply in_or_app. right. left; reflexivity.
  - inversion Hs; subst. auto.
Qed.

(** ** The search never exhausts its depth bound *)

Section Search.
Variable es : list Edge.

Lemma colour_white grey black n :
  colour_of grey black n = White -> ~ In n grey /\ ~ In n black.
Proof.
  unfold colour_of. destruct (mem n black) eqn:Eb; [discriminate|].
  destruct (mem n grey) eqn:Eg; [discriminate|].
  intros _. split; apply mem_not_In; assumption.
Qed.

Lemma visit_each_total (v : list string -> string -> dfs_result) ns :
  (forall black n, In n ns -> v black n <> OutOfFuel) ->
  forall black, visit_each v ns black <> OutOfFuel.
Proof.
  induction ns as [|n ns IH]; intros Hv black; simpl; [discriminate|].
  destruct (v black n) eqn:E; try discriminate.
  - apply IH. intros b m Hm. apply Hv. right; exact Hm.
  - exfalso. apply (Hv black n); [left; reflexivity | exact E].
Qed.

Lemma visit_total (ids : list string) :
  (forall e, In e es -> In (target e) ids) ->
  forall fuel grey black n,
    NoDup grey -> incl grey ids -> In n ids ->
    List.length ids <= fuel + List.length grey ->
    visit fuel es grey black n <> OutOfFuel.
Proof.
  intros Htgt. induction fuel as [|fuel IH]; intros grey black n ND Hincl Hn Hlen.
  - simpl. destruct (colour_of grey black n) eqn:C; try discriminate.
    exfalso. apply colour_white in C as [Hg _].
    assert (List.length (n :: grey) <= List.length ids).
    { apply NoDup_incl_length; [constructor; assumption|].
      intros x [<-|Hx]; auto. }
    simpl in *. lia.
  - simpl. destruct (colour_of grey black n) eqn:C; try discriminate.
    apply colour_white in C as [Hg _].
    assert (Hne : visit_each (visit fuel es (n :: grey)) (successors es n) black
                  <> OutOfFuel).
    { apply visit_each_total. intros b m Hm. apply IH.
      - constructor; assumption.
      - intros x [<-|Hx]; auto.
      - apply In_successors in Hm as [e [He [_ <-]]]. apply Htgt; exact He.
      - simpl. lia. }
    destruct (visit_each _ _ black); congruence.
Qed.

(** ** A search that finishes certifies the absence of cycles *)

Lemma visit_each_finished (v : list string -> string -> dfs_result) ns :
  (forall black n black', In n ns -> finishing es black ->
     v black n = Finished black' ->
     finishing es black' /\ In n black' /\ incl black black') ->
  forall black black', finishing es black ->
    visit_each v ns black = Finished black' ->
    finishing es black' /\ incl ns black' /\ incl black black'.
Proof.
  induction ns as [|n ns IH]; intros Hv black black' Hf; simpl.
  - intros E; inversion E; subst. repeat split; auto using incl_refl.
    intros x [].
  - destruct (v black n) as [b1| |] eqn:E; try discriminate.
    intros Hrest.
    destruct (Hv black n b1 (or_introl eq_refl) Hf E) as [Hf1 [Hn1 Hi1]].
    destruct (IH (fun b m b' Hm => Hv b m b' (or_intror Hm)) b1 black' Hf1 Hrest)
      as [Hf2 [Hns Hi2]].
    repeat split; auto.
    + intros x [<-|Hx]; auto.
    + eapply incl_tran; eauto.
Qed.

Lemma visit_finished fuel :
  forall grey black n black', finishing es black ->
    visit fuel es grey black n = Finished black' ->
    finishing es black' /\ In n black' /\ incl black black'.
Proof.
  induction fuel as [|fuel IH]; intros grey black n black' Hf; simpl;
    destruct (colour_of grey black n) eqn:C; try discriminate.
  - intros E; inversion E; subst. repeat split; auto using incl_refl.
    unfold colour_of in C. destruct (mem n black') eqn:M.
    + apply mem_In; exact M.
    + destruct (mem n grey); discriminate.
  - destruct (visit_each (visit fuel es (n :: grey)) (successors es n) black)
      as [b1| |] eqn:E; try discriminate.
    intros E'; inversion E'; subst.
    destruct (visit_each_finished (visit fuel es (n :: grey)) (successors es n)
                (fun b m b' _ => IH (n :: grey) b m b') black b1 Hf E)
      as [Hf1 [Hs Hi]].
    repeat split.
    + exact Hs.
    + exact Hf1.
    + left; reflexivity.
    + intros x Hx. right. apply Hi; exact Hx.
  - intros E; inversion E; subst. repeat split; auto using incl_refl.
    unfold colour_of in C. destruct (mem n black') eqn:M.
    + apply mem_In; exact M.
    + destruct (mem n grey); discriminate.
Qed.

Lemma finishing_closed (l : list string) :
  finishing es l -> forall u v, path es u v -> In u l -> In v l.
Proof.
  induction l as [|a l IH]; simpl; [tauto|].
  intros [Hsucc Hf] u v Hp. induction Hp as [e He | e z He Hp IHp].
  - intros [Ha|Hu].
    + right. apply Hsucc. rewrite Ha. apply successors_In; exact He.
    + right. apply (IH Hf (source e) (target e)); [constructor; exact He | exact Hu].
  - intros [Ha|Hu].
    + apply IHp. right. apply Hsucc. rewrite Ha. apply successors_In; exact He.
    + apply IHp. right.
      apply (IH Hf (source e) (target e)); [constructor; exact He | exact Hu].
Qed.

Lemma path_first (u v : string) :
  path es u v ->
  exists e, In e es /\ source e = u /\ (target e = v \/ path es (target e) v).
Proof.
  intros Hp. destruct Hp as [e He | e z He Hp]; exists e; auto.
Qed.

Lemma finishing_acyclic (l : list string) :
  finishing es l -> forall u, In u l -> ~ path es u u.
Proof.
  induction l as [|a l IH]; simpl; [tauto|].
  intros [Hsucc Hf] u Hu Hp.
  destruct (in_dec string_dec u l) as [Hin|Hnin].
  - exact (IH Hf u Hin Hp).
  - destruct Hu as [<-|Hu]; [|contradiction].
    apply Hnin. destruct (path_first _ _ Hp) as [e [He [Hs [Ht|Hp']]]].
    + rewrite <- Ht. apply Hsucc. rewrite <- Hs. apply successors_In; exact He.
    + apply (finishing_closed l Hf _ _ Hp'). apply Hsucc.
      rewrite <- Hs. apply successors_In; exact He.
Qed.

(** ** A back-edge closes a cycle *)

Lemma path_snoc (u v : string) (e : Edge) :
  path es u v -> In e es -> source e = v -> path es u (target e).
Proof.
  intros Hp He Hs. induction Hp as [e0 He0 | e0 z He0 Hp IH].
  - apply path_step with (e := e0); [exact He0|].
    rewrite <- Hs. constructor; exact He.
  - apply path_step with (e := e0); [exact He0 | apply IH; exact Hs].
Qed.

Lemma successor_path (u v : string) : In v (successors es u) -> path es u v.
Proof.
  intros H. apply In_successors in H as [e [He [<- <-]]]. constructor; exact He.
Qed.

Lemma linked_path (p : string) (t : list string) :
  linked es (p :: t) -> forall x, In x t -> path es x p.
Proof.
  revert p; induction t as [|q t IH]; intros p Hl x Hx; [destruct Hx|].
  destruct Hl as [Hpq Hl]. apply In_successors in Hpq as [e [He [Hs Ht]]].
  destruct Hx as [<-|Hx].
  - rewrite <- Hs, <- Ht. constructor; exact He.
  - rewrite <- Ht. apply path_snoc with (v := q); auto.
Qed.

Lemma grey_cycle grey black n :
  linked es grey -> entered_from es grey n ->
  colour_of grey black n = Grey -> path es n n.
Proof.
  intros Hl Hfrom C. unfold colour_of in C.
  destruct (mem n black); [discriminate|].
  destruct (mem n grey) eqn:G; [|discriminate]. apply mem_In in G.
  destruct grey as [|p t]; [destruct G|]. simpl in Hfrom.
  destruct G as [<-|G].
  - apply successor_path; exact Hfrom.
  - apply In_successors in Hfrom as [e [He [Hs Ht]]].
    rewrite <- Ht at 2. apply path_snoc with (v := p); auto.
    apply linked_path with (t := t); assumption.
Qed.

Lemma visit_each_backedge (v : list string -> string -> dfs_result) ns m :
  (forall black n, In n ns -> v black n = BackEdge m -> path es m m) ->
  forall black, visit_each v ns black = BackEdge m -> path es m m.
Proof.
  induction ns as [|n ns IH]; intros Hv black; simpl; [discriminate|].
  destruct (v black n) eqn:E; try discriminate.
  - apply IH. intros b k Hk. apply Hv. right; exact Hk.
  - intros E'; inversion E'; subst. apply (Hv black n); [left; reflexivity | exact E].
Qed.

Lemma visit_backedge fuel :
  forall grey black n m,
    linked es grey -> entered_from es grey n ->
    visit fuel es grey black n = BackEdge m -> path es m m.
Proof.
  induction fuel as [|fuel IH]; intros grey black n m Hl Hfrom; simpl;
    destruct (colour_of grey black n) eqn:C; try discriminate.
  - intros E; inversion E; subst m. apply (grey_cycle grey black n); assumption.
  - destruct (visit_each (visit fuel es (n :: grey)) (successors es n) black)
      as [b1|k|] eqn:E; try discriminate.
    intros E'; inversion E'; subst k.
    eapply visit_each_backedge; [|exact E].
    intros b k Hk. apply IH.
    + destruct grey as [|p t]; simpl; [exact I | split; assumption].
    + exact Hk.
  - intros E; inversion E; subst m. apply (grey_cycle grey black n); assumption.
Qed.

End Search.

(** ** What [validate] decides *)

Lemma detect_cycle_total (w : Workflow) :
  no_dangling w -> detect_cycle w <> OutOfFuel.
Proof.
  intros Hnd. unfold detect_cycle. apply visit_each_total.
  intros black n Hn. apply visit_total with (ids := node_ids w).
  - intros e He. apply Hnd; exact He.
  - constructor.
  - intros x [].
  - exact Hn.
  - unfold node_ids. rewrite length_map. simpl. lia.
Qed.


Lemma path_source_In (w : Workflow) (u v : string) :
  no_dangling w -> path (edges w) u v -> In u (node_ids w).
Proof.
  intros Hnd Hp. destruct (path_first _ _ _ Hp) as [e [He [<- _]]]. apply Hnd; exact He.
Qed.

Lemma detect_cycle_finished (w : Workflow) (l : list string) :
  detect_cycle w = Finished l ->
  finishing (edges w) l /\ incl (node_ids w) l.
Proof.
  unfold detect_cycle. intros E.
  destruct (visit_each_finished (edges w)
              (visit (List.length (nodes w)) (edges w) []) (node_ids w)
              (fun b n b' _ => visit_finished (edges w) _ [] b n b')
              [] l I E) as [Hf [Hi _]].
  split; assumption.
Qed.

Lemma detect_cycle_backedge (w : Workflow) (m : string) :
  detect_cycle w = BackEdge m -> path (edges w) m m.
Proof.
  unfold detect_cycle.
  apply visit_each_backedge. intros black n _.
  apply visit_backedge; exact I.
Qed.

(** A valid workflow has unique node ids, no dangling edge, and a list
    of its nodes in which every edge points forward. *)
Lemma validate_Valid (w : Workflow) :
  validate w = Some Valid ->
  unique_ids w /\ no_dangling w /\
  exists l, finishing (edges w) l /\ incl (node_ids w) l.
Proof.
  unfold validate.
  destruct (first_duplicate [] (node_ids w)) eqn:U; [discriminate|].
  destruct (first_dangling (node_ids w) (edges w)) eqn:D; [discriminate|].
  destruct (detect_cycle w) as [l|m|] eqn:C; try discriminate.
  intros _. apply unique_ids_iff in U. apply no_dangling_iff in D.
  split; [exact U | split; [exact D|]].
  exists l. apply detect_cycle_finished; exact C.
Qed.

Lemma valid_acyclic (w : Workflow) :
  validate w = Some Valid -> ~ has_cycle w.
Proof.
  intros V [n Hp]. destruct (validate_Valid w V) as [_ [Hnd [l [Hf Hi]]]].
  apply (finishing_acyclic (edges w) l Hf n); [|exact Hp].
  apply Hi. apply (path_source_In w n n Hnd Hp).
Qed.

(** [validate] accepts exactly the workflows with unique ids, no
    dangling edge and no cycle. *)
Lemma validate_Valid_iff (w : Workflow) :
  validate w = Some Valid <->
  unique_ids w /\ no_dangling w /\ ~ has_cycle w.
Proof.
  split.
  - intros V. destruct (validate_Valid w V) as [U [D _]].
    split; [exact U | split; [exact D|]]. apply valid_acyclic; exact V.
  - intros [U [D A]]. unfold validate.
    apply unique_ids_iff in U. rewrite U.
    pose proof (detect_cycle_total w D) as T.
    apply no_dangling_iff in D. rewrite D.
    destruct (detect_cycle w) as [l|m|] eqn:C; [reflexivity| |congruence].
    exfalso. apply A. exists m. apply detect_cycle_backedge; exact C.
Qed.

(** ** Ranks *)

Lemma list_max_cons (a : nat) (l : list nat) :
  list_max (a :: l) = Nat.max a (list_max l).
Proof. reflexivity. Qed.

Lemma list_max_In (l : list nat) : l <> [] -> In (list_max l) l.
Proof.
  induction l as [|a l IH]; [congruence|]. intros _.
  rewrite list_max_cons. destruct l as [|b l'].
  - left. simpl. lia.
  - destruct (Nat.max_spec a (list_max (b :: l'))) as [[_ E]|[_ E]]; rewrite E.
    + right. apply IH. discriminate.
    + left; reflexivity.
Qed.

Lemma list_max_ge (l : list nat) (x : nat) : In x l -> x <= list_max l.
Proof.
  intros Hx. assert (H : Forall (fun k => k <= list_max l) l).
  { apply list_max_le. lia. }
  rewrite Forall_forall in H. apply H; exact Hx.
Qed.

Lemma list_max_perm (l l' : list nat) :
  Permutation l l' -> list_max l = list_max l'.
Proof.
  induction 1; rewrite ?list_max_cons; lia.
Qed.

Lemma list_max_map_le {A : Type} (g h : A -> nat) (l : list A) :
  (forall x, In x l -> g x <= h x) ->
  list_max (map g l) <= list_max (map h l).
Proof.
  induction l as [|a l IH]; intros H; simpl map; [lia|].
  rewrite !list_max_cons.
  assert (g a <= h a) by (apply H; left; reflexivity).
  assert (list_max (map g l) <= list_max (map h l)).
  { apply IH. intros x Hx. apply H. right; exact Hx. }
  lia.
Qed.

Lemma kept_edges_perm (keep : Edge -> bool) (es es' : list Edge) :
  Permutation es es' -> Permutation (filter keep es) (filter keep es').
Proof.
  intros H; induction H as [|e l l' _ IH|e1 e2 l|l l' l'' _ IH1 _ IH2]; simpl.
  - constructor.
  - destruct (keep e); [apply perm_skip|]; exact IH.
  - destruct (keep e1), (keep e2); try apply Permutation_refl. apply perm_swap.
  - eapply perm_trans; eauto.
Qed.

Section Rank.
Variable es : list Edge.

Lemma rank_succ (f : nat) (n : string) :
  rank (S f) es n
  = list_max (map (fun p => S (rank f es p)) (predecessors es n)).
Proof. reflexivity. Qed.

Lemma pred_succ (p n : string) :
  In p (predecessors es n) <-> In n (successors es p).
Proof. rewrite In_predecessors, In_successors. tauto. Qed.

Lemma rank_mono (f : nat) : forall n, rank f es n <= rank (S f) es n.
Proof.
  induction f as [|f IH]; intros n; [simpl; lia|].
  rewrite (rank_succ (S f)), (rank_succ f).
  apply list_max_map_le. intros p _. specialize (IH p). lia.
Qed.

Lemma rank_stable (f : nat) :
  forall n, rank f es n < f -> rank (S f) es n = rank f es n.
Proof.
  induction f as [|f IH]; intros n H; [lia|].
  rewrite (rank_succ (S f)), (rank_succ f). f_equal.
  apply map_ext_in. intros p Hp. f_equal. apply IH.
  rewrite rank_succ in H.
  assert (S (rank f es p) <= list_max (map (fun p => S (rank f es p))
                                           (predecessors es n))).
  { apply list_max_ge. apply in_map_iff. exists p. auto. }
  lia.
Qed.

(** A node of rank [k] ends a chain of [k] edges. *)
Lemma rank_chain (f : nat) :
  forall n, exists t, linked es (n :: t) /\ List.length t = rank f es n.
Proof.
  induction f as [|f IH]; intros n.
  - exists []. split; [exact I | reflexivity].
  - rewrite rank_succ. destruct (predecessors es n) as [|q qs] eqn:P.
    + exists []. split; [exact I | reflexivity].
    + assert (Hin : In (list_max (map (fun p => S (rank f es p)) (q :: qs)))
                       (map (fun p => S (rank f es p)) (q :: qs))).
      { apply list_max_In. discriminate. }
      apply in_map_iff in Hin as [p [Hp Hpin]].
      destruct (IH p) as [t [Hl Hlen]].
      exists (p :: t). split.
      * split; [|exact Hl]. apply pred_succ. rewrite P. exact Hpin.
      * simpl. rewrite Hlen. exact Hp.
Qed.

Lemma linked_tail (a : string) (t : list string) :
  linked es (a :: t) -> linked es t.
Proof. destruct t as [|q t]; simpl; tauto. Qed.

Lemma linked_NoDup (l : list string) :
  (forall x, ~ path es x x) -> linked es l -> NoDup l.
Proof.
  intros Hac. induction l as [|a t IH]; intros Hl; [constructor|].
  constructor.
  - intros Hin. apply (Hac a). apply (linked_path es a t Hl a Hin).
  - apply IH. apply (linked_tail a t Hl).
Qed.

Lemma linked_sources (a : string) (t : list string) :
  linked es (a :: t) ->
  forall x, In x t -> exists e, In e es /\ source e = x.
Proof.
  revert a; induction t as [|q t IH]; intros a Hl x Hx; [destruct Hx|].
  destruct Hl as [Haq Hl]. destruct Hx as [<-|Hx].
  - apply In_successors in Haq as [e [He [Hs _]]]. eauto.
  - apply (IH q Hl x Hx).
Qed.

End Rank.

Lemma predecessors_perm (es es' : list Edge) (n : string) :
  Permutation es es' ->
  Permutation (predecessors es n) (predecessors es' n).
Proof.
  intros H. unfold predecessors. apply Permutation_map, kept_edges_perm, H.
Qed.

Lemma rank_perm (es es' : list Edge) :
  Permutation es es' -> forall f n, rank f es n = rank f es' n.
Proof.
  intros H. induction f as [|f IH]; intros n; [reflexivity|].
  rewrite !rank_succ. 
  rewrite (map_ext _ (fun p => S (rank f es' p))).
  - apply list_max_perm, Permutation_map, predecessors_perm, H.
  - intros p. rewrite IH. reflexivity.
Qed.

(** ** Ranks of a valid workflow *)

Section ValidWorkflow.
Variable w : Workflow.
Hypothesis valid : validate w = Some Valid.

Lemma rank_bound (f : nat) (n : string) :
  In n (node_ids w) -> rank f (edges w) n < List.length (nodes w).
Proof.
  intros Hn. destruct (validate_Valid w valid) as [_ [Hnd _]].
  destruct (rank_chain (edges w) f n) as [t [Hl Hlen]].
  assert (ND : NoDup (n :: t)).
  { apply (linked_NoDup (edges w)); [|exact Hl].
    intros x Hp. apply (valid_acyclic w valid). exists x; exact Hp. }
  assert (Hincl : incl (n :: t) (node_ids w)).
  { intros x [<-|Hx]; [exact Hn|].
    destruct (linked_sources (edges w) n t Hl x Hx) as [e [He <-]].
    apply Hnd; exact He. }
  pose proof (NoDup_incl_length ND Hincl) as L.
  unfold node_ids in L. rewrite length_map in L. simpl in L. lia.
Qed.

(** The rank of a node is one more than the greatest rank among its
    predecessors, and 0 when it has none. *)
Lemma rank_of_step (n : string) :
  rank_of w n
  = list_max (map (fun p => S (rank_of w p)) (predecessors (edges w) n)).
Proof.
  unfold rank_of. destruct (validate_Valid w valid) as [_ [Hnd _]].
  destruct (in_dec string_dec n (node_ids w)) as [Hn|Hn].
  - rewrite <- rank_succ. symmetry. apply rank_stable.
    apply rank_bound; exact Hn.
  - assert (P : predecessors (edges w) n = []).
    { destruct (predecessors (edges w) n) as [|p ps] eqn:P; [reflexivity|].
      exfalso. apply Hn.
      assert (Hp : In p (predecessors (edges w) n)) by (rewrite P; left; reflexivity).
      apply In_predecessors in Hp as [e [He [_ <-]]]. apply Hnd; exact He. }
    rewrite P. destruct (List.length (nodes w)); [reflexivity|].
    rewrite rank_succ, P. reflexivity.
Qed.

Lemma rank_edge (e : Edge) :
  In e (edges w) -> rank_of w (source e) < rank_of w (target e).
Proof.
  intros He. rewrite (rank_of_step (target e)).
  assert (S (rank_of w (source e)) <=
          list_max (map (fun p => S (rank_of w p))
                        (predecessors (edges w) (target e)))).
  { apply list_max_ge. apply in_map_iff. exists (source e).
    split; [reflexivity|]. apply In_predecessors. eauto. }
  lia.
Qed.

Lemma rank_root (n : string) :
  rank_of w n = 0 <-> is_root w n = true.
Proof.
  rewrite rank_of_step. unfold is_root.
  destruct (predecessors (edges w) n) as [|p ps]; simpl map.
  - split; reflexivity.
  - rewrite list_max_cons. split; [lia | discriminate].
Qed.

End ValidWorkflow.


(** ** C1: cyclic workflows *)




(** Scenario C: [A -> B, B -> A] is rejected with [CycleDetected]. *)
Example scenario_C :
  validate two_cycle = Some (Invalid (CycleDetected "A"))
  /\ execute (env_with healthy never) [] two_cycle "go" [] 0
     = ([], Some (Rejected (CycleDetected "A"))).
Proof. split; vm_compute; reflexivity. Qed.

(** An Execution is only ever created from an acyclic graph. *)
Lemma executed_acyclic (env : Env) (store store' : ExecutionStore)
    (w : Workflow) (inp : string) (ctx : context) (now : nat) (x : Execution) :
  execute env store w inp ctx now = (store', Some (Ran x)) -> ~ has_cycle w.
Proof.
  unfold execute. destruct (validate w) as [[|e]|] eqn:V; try discriminate.
  intros _. apply valid_acyclic; exact V.
Qed.

(** ** C2: the topological order *)

Lemma NoDup_map_inj {A B : Type} (f : A -> B) (l : list A) (x y : A) :
  NoDup (map f l) -> In x l -> In y l -> f x = f y -> x = y.
Proof.
  induction l as [|a l IH]; simpl; [tauto|].
  intros ND Hx Hy E. inversion ND as [|? ? Hni ND']; subst.
  destruct Hx as [<-|Hx], Hy as [<-|Hy]; auto.
  - exfalso. apply Hni. rewrite E. apply in_map; exact Hy.
  - exfalso. apply Hni. rewrite <- E. apply in_map; exact Hx.
Qed.

Lemma sort_nodes_ext (rk rk' : string -> nat) (l : list Node) :
  (forall n, rk n = rk' n) -> sort_nodes rk l = sort_nodes rk' l.
Proof.
  intros H. induction l as [|x l IH]; simpl; [reflexivity|]. rewrite IH.
  generalize (sort_nodes rk' l). intros m.
  induction m as [|y m IHm]; simpl; [reflexivity|].
  unfold precedes. rewrite !H, IHm. reflexivity.
Qed.

Lemma precedes_refl (rk : string -> nat) (a : string) : precedes rk a a = true.
Proof.
  apply precedes_spec. right. split; [reflexivity|].
  apply leb_iff. left; reflexivity.
Qed.

(** In a sorted list of nodes, a node that the order does not put after
    another one occurs before it. *)
Lemma sorted_occurs_before (rk : string -> nat) (l : list Node) (x y : Node) :
  StronglySorted (node_le rk) l -> In x l -> In y l ->
  precedes rk (id y) (id x) = false ->
  occurs_before (id x) (id y) (map id l).
Proof.
  intros Hs Hx Hy Hp.
  assert (Hne : x <> y).
  { intros ->. rewrite precedes_refl in Hp. discriminate. }
  destruct (In_two_split x y l Hx Hy Hne) as [[l1 [l2 [l3 E]]]|[l1 [l2 [l3 E]]]].
  - exists (map id l1), (map id l2), (map id l3). rewrite E.
    rewrite map_app. simpl. rewrite map_app. reflexivity.
  - exfalso. rewrite E in Hs. apply sorted_split in Hs.
    unfold node_le in Hs. congruence.
Qed.

(** C2: for a validated workflow, [topologicalOrder] lists every node
    exactly once, puts the source of every edge before its target, and
    is the nodes by rank (the length of the longest chain of edges
    ending at the node, 0 exactly for roots) with equal ranks, roots in
    particular, in ascending id order; any workflow with the same nodes
    and edges listed in another order gets the same order. *)
Theorem topologicalOrder_canonical (w : Workflow) :
  validate w = Some Valid ->
  let order := topologicalOrder w in
  Permutation order (nodes w)
  /\ NoDup (map id order)
  /\ (forall e, In e (edges w) ->
        occurs_before (source e) (target e) (map id order))
  /\ StronglySorted (node_le (rank_of w)) order
  /\ (forall n, rank_of w n
        = list_max (map (fun p => S (rank_of w p)) (predecessors (edges w) n)))
  /\ (forall a b, In a (node_ids w) -> In b (node_ids w) ->
        rank_of w a = rank_of w b -> (a <? b)%string = true ->
        occurs_before a b (map id order))
  /\ (forall a b, In a (node_ids w) -> In b (node_ids w) ->
        is_root w a = true -> is_root w b = true -> (a <? b)%string = true ->
        occurs_before a b (map id order))
  /\ (forall w', Permutation (nodes w) (nodes w') ->
        Permutation (edges w) (edges w') ->
        topologicalOrder w' = order).
Proof.
  intros V order.
  destruct (validate_Valid w V) as [U [D _]].
  assert (HP : Permutation order (nodes w)) by apply sort_nodes_perm.
  assert (HS : StronglySorted (node_le (rank_of w)) order)
    by apply sort_nodes_sorted.
  assert (HN : NoDup (map id order)).
  { eapply Permutation_NoDup; [|exact U].
    apply Permutation_map, Permutation_sym, HP. }
  assert (Hnode : forall a, In a (node_ids w) ->
            exists x, In x order /\ id x = a).
  { intros a Ha. apply in_map_iff in Ha as [x [E Hx]]. exists x.
    split; [|exact E]. eapply Permutation_in; [apply Permutation_sym, HP | exact Hx]. }
  assert (Hties : forall a b, In a (node_ids w) -> In b (node_ids w) ->
            rank_of w a = rank_of w b -> (a <? b)%string = true ->
            occurs_before a b (map id order)).
  { intros a b Ha Hb Hr Hlt.
    destruct (Hnode a Ha) as [x [Hx <-]]. destruct (Hnode b Hb) as [y [Hy <-]].
    apply (sorted_occurs_before (rank_of w)); auto.
    unfold precedes. rewrite Hr, Nat.ltb_irrefl, Nat.eqb_refl, (ltb_leb _ _ Hlt).
    reflexivity. }
  split; [exact HP|]. split; [exact HN|]. split; [|split; [exact HS|]].
  - intros e He. destruct (D e He) as [Hs Ht].
    destruct (Hnode _ Hs) as [x [Hx Ex]]. destruct (Hnode _ Ht) as [y [Hy Ey]].
    rewrite <- Ex, <- Ey. apply (sorted_occurs_before (rank_of w)); auto.
    pose proof (rank_edge w V e He) as L. rewrite Ex, Ey.
    unfold precedes.
    destruct (Nat.ltb_spec (rank_of w (target e)) (rank_of w (source e))); [lia|].
    destruct (Nat.eqb_spec (rank_of w (target e)) (rank_of w (source e))); [lia|].
    reflexivity.
  - split; [apply rank_of_step; exact V|]. split; [exact Hties|]. split.
    + intros a b Ha Hb Ra Rb. apply Hties; auto.
      apply (rank_root w V) in Ra, Rb. congruence.
    + intros w' Pn Pe. unfold order, topologicalOrder.
      rewrite <- (Permutation_length Pn).
      rewrite (sort_nodes_ext _ (rank (List.length (nodes w)) (edges w))).
      2:{ intros n. symmetry. apply rank_perm; exact Pe. }
      symmetry. apply (sorted_perm_eq (node_le (rank_of w))).
      * intros x y Hx Hy Lxy Lyx.
        apply (NoDup_map_inj id order); auto.
        apply (precedes_antisym (rank_of w)); assumption.
      * exact HS.
      * apply sort_nodes_sorted.
      * eapply perm_trans; [exact HP|].
        eapply perm_trans; [exact Pn|]. apply Permutation_sym, sort_nodes_perm.
Qed.

Lemma topologicalOrder_canonical_witness :
  map id (topologicalOrder review_chain) = ["P"; "E"; "R"]%string
  /\ topologicalOrder review_chain_shuffled = topologicalOrder review_chain.
Proof.
  split; [vm_compute; reflexivity|].
  assert (V : validate review_chain = Some Valid) by (vm_compute; reflexivity).
  apply (proj2 (proj2 (proj2 (proj2 (proj2 (proj2 (proj2
           (topologicalOrder_canonical review_chain V)))))))).
  - simpl. apply Permutation_sym. apply (Permutation_cons_append [_; _]).
  - simpl. apply perm_swap.
Defined.

(** ** C3: the dispatcher's retry policy *)

Lemma invocations_app (l l' : list event) :
  invocations (l ++ l') = invocations l + invocations l'.
Proof.
  induction l as [|[r|d] l IH]; simpl; rewrite ?IH; reflexivity.
Qed.

(** What [dispatch] returns and what it does to the outside, by cases on
    the registry and on the backend's first answer. *)
Lemma dispatch_cases (env : Env) (n : Node) (inp : string) (w0 : world) :
  match lookup (registry env) (agent_type n) with
  | None =>
      dispatch env n inp w0
      = (DispatchFailure (UnknownAgentType (agent_type n)), w0)
  | Some b =>
      let req := request_of b n inp in
      match client env (calls w0) req with
      | Text t =>
          dispatch env n inp w0
          = (Produced t,
             {| calls := S (calls w0); log := log w0 ++ [Invoke req] |})
      | Fail e =>
          if transient e then
            dispatch env n inp w0
            = (match client env (S (calls w0)) req with
               | Text t => Produced t
               | Fail e2 => RuntimeFailure e2
               end,
               {| calls := S (S (calls w0));
                  log := ((log w0 ++ [Invoke req]) ++ [Backoff (backoff env)])
                         ++ [Invoke req] |})
          else
            dispatch env n inp w0
            = (RuntimeFailure e,
               {| calls := S (calls w0); log := log w0 ++ [Invoke req] |})
      end
  end.
Proof.
  unfold dispatch. destruct (lookup (registry env) (agent_type n)) as [b|];
    [|reflexivity].
  unfold bind, run_behavior, invoke, pause, ret, request_of. simpl.
  destruct (client env (calls w0) _) as [t|e] eqn:R1; [reflexivity|].
  destruct (transient e); [|reflexivity]. simpl.
  destruct (client env (S (calls w0)) _); reflexivity.
Qed.

Lemma terminal_fixed (env : Env) (s : run_state) :
  terminal (status (exec s)) = true -> exec_step env s = s.
Proof.
  unfold exec_step. destruct (status (exec s)); simpl; try discriminate;
    reflexivity.
Qed.

Lemma run_terminal (env : Env) (k : nat) (s : run_state) :
  terminal (status (exec s)) = true -> run env k s = s.
Proof.
  intros T. induction k as [|k IH]; simpl; [reflexivity|].
  rewrite (terminal_fixed env s T). exact IH.
Qed.

(** A failed dispatch ends the run: the failed Step is appended, the
    status becomes [Failed], no output is set, and no later move changes
    anything, the log of calls included. *)
Lemma exec_step_failure (env : Env) (s : run_state) (n : Node)
    (rest : list Node) (r : StepResult) (w' : world) :
  status (exec s) = Running ->
  pending s = n :: rest ->
  cancel_requested env (passed s) = false ->
  skipped env (snapshot s) (context_now s) n = false ->
  dispatch env n (compose env (input (exec s)) (context_now s)) (world_now s)
    = (r, w') ->
  (forall t, r <> Produced t) ->
  let s' := exec_step env s in
  steps (exec s') = steps (exec s) ++ [failed_step n r]
  /\ status (exec s') = Failed
  /\ final_output (exec s') = None
  /\ world_now s' = w'
  /\ forall k, run env k s' = s'.
Proof.
  intros Hst Hp Hc Hsk Hd Hr s'.
  assert (E : s' = {| exec := set_status (append_step (exec s) (failed_step n r))
                                         Failed None;
                      snapshot := snapshot s; pending := pending s;
                      context_now := context_now s; passed := passed s;
                      world_now := w' |}).
  { unfold s', exec_step. rewrite Hst, Hp, Hc, Hsk, Hd.
    destruct r as [t| |]; [exfalso; apply (Hr t); reflexivity| |]; reflexivity. }
  rewrite E. simpl. repeat split. intros k. apply run_terminal. reflexivity.
Qed.

(** C3: a node's dispatch calls the backend at most twice.  An unknown
    agent type makes no call; a text answer or [InvalidModel] ends the
    dispatch after one call; [Unreachable] or [Timeout] is followed by
    the fixed backoff and exactly one more call, whose outcome is
    final.  A failed dispatch fails the run at once. *)
Theorem dispatch_retry_policy (env : Env) (n : Node) (inp : string)
    (w0 : world) :
  let r := fst (dispatch env n inp w0) in
  let w1 := snd (dispatch env n inp w0) in
  invocations (log w1) <= invocations (log w0) + 2
  /\ match lookup (registry env) (agent_type n) with
     | None =>
         r = DispatchFailure (UnknownAgentType (agent_type n)) /\ w1 = w0
     | Some b =>
         let req := request_of b n inp in
         match client env (calls w0) req with
         | Text t => r = Produced t /\ log w1 = log w0 ++ [Invoke req]
         | Fail Unreachable | Fail Timeout =>
             log w1 = log w0 ++ [Invoke req; Backoff (backoff env); Invoke req]
             /\ r = match client env (S (calls w0)) req with
                    | Text t => Produced t
                    | Fail e2 => RuntimeFailure e2
                    end
         | Fail InvalidModel =>
             r = RuntimeFailure InvalidModel /\ log w1 = log w0 ++ [Invoke req]
         end
     end
  /\ forall s rest,
       status (exec s) = Running ->
       pending s = n :: rest ->
       cancel_requested env (passed s) = false ->
       skipped env (snapshot s) (context_now s) n = false ->
       world_now s = w0 ->
       compose env (input (exec s)) (context_now s) = inp ->
       (forall t, r <> Produced t) ->
       steps (exec (exec_step env s)) = steps (exec s) ++ [failed_step n r]
       /\ status (exec (exec_step env s)) = Failed
       /\ forall k, run env k (exec_step env s) = exec_step env s.
Proof.
  intros r w1. pose proof (dispatch_cases env n inp w0) as C.
  split; [|split].
  - unfold w1. destruct (lookup (registry env) (agent_type n)) as [b|].
    + simpl in C. destruct (client env (calls w0) (request_of b n inp)) as [t|e].
      * rewrite C. simpl. rewrite invocations_app. simpl. lia.
      * destruct (transient e); rewrite C; simpl;
          rewrite !invocations_app; simpl; lia.
    + rewrite C. simpl. lia.
  - unfold r, w1. destruct (lookup (registry env) (agent_type n)) as [b|].
    + simpl in C. simpl.
      destruct (client env (calls w0) (request_of b n inp)) as [t|[| |]];
        simpl in C; rewrite C; simpl; rewrite <- ?app_assoc; split; reflexivity.
    + rewrite C. split; reflexivity.
  - intros s rest Hst Hp Hc Hsk Hw Hin Hr.
    destruct (dispatch env n inp w0) as [r0 w'] eqn:D.
    subst w0 inp.
    destruct (exec_step_failure env s n rest r0 w' Hst Hp Hc Hsk D Hr)
      as [H1 [H2 [_ [_ H5]]]].
    auto.
Qed.

Lemma dispatch_retry_policy_witness :
  fst (dispatch (env_with llama_down never) node_E "Analyze sales data"
                (world_now before_E))
    = RuntimeFailure Unreachable
  /\ invocations (log (snd (dispatch (env_with llama_down never) node_E
                              "Analyze sales data" (world_now before_E))))
     <= invocations (log (world_now before_E)) + 2
  /\ status (exec (exec_step (env_with llama_down never) before_E)) = Failed
  /\ steps (exec (exec_step (env_with llama_down never) before_E))
     = steps (exec before_E) ++ [failed_step node_E (RuntimeFailure Unreachable)].
Proof.
  destruct (dispatch_retry_policy (env_with llama_down never) node_E
              "Analyze sales data" (world_now before_E)) as [H1 [H2 H3]].
  assert (R : fst (dispatch (env_with llama_down never) node_E
                     "Analyze sales data" (world_now before_E))
              = RuntimeFailure Unreachable) by (vm_compute; reflexivity).
  destruct (H3 before_E [node_R]) as [S1 [S2 _]];
    try (vm_compute; reflexivity).
  - intros t. rewrite R. discriminate.
  - split; [exact R|]. split; [exact H1|]. split; [exact S2|].
    rewrite S1, R. reflexivity.
Defined.

(** Scenario B: node E's backend is unreachable on the call and on its
    single retry. *)
Example scenario_B :
  let x := exec (scenario_run (env_with llama_down never) 5) in
  status x = Failed
  /\ map step_node (steps x) = ["P"; "E"]%string
  /\ map step_result (steps x)
     = [Produced "answer of mistral"; RuntimeFailure Unreachable]
  /\ final_output x = None
  /\ invocations (log (world_now (scenario_run (env_with llama_down never) 5)))
     = 3.
Proof. vm_compute. repeat split. Qed.

(** A timeout followed by an answer on the retry is not an error. *)
Example retry_recovers :
  let x := exec (scenario_run (env_with hiccup never) 5) in
  status x = Completed
  /\ map step_node (steps x) = ["P"; "E"; "R"]%string
  /\ invocations (log (world_now (scenario_run (env_with hiccup never) 5))) = 4.
Proof. vm_compute. repeat split. Qed.

(** An unknown model is not retried. *)
Example invalid_model_not_retried :
  let x := exec (scenario_run (env_with llama_unknown never) 5) in
  status x = Failed
  /\ map step_result (steps x)
     = [Produced "answer of mistral"; RuntimeFailure InvalidModel]
  /\ invocations
       (log (world_now (scenario_run (env_with llama_unknown never) 5))) = 2.
Proof. vm_compute. repeat split. Qed.

(** ** C4: the executor's state machine *)

Lemma snapshot_step (env : Env) (s : run_state) :
  snapshot (exec_step env s) = snapshot s.
Proof.
  unfold exec_step. destruct (status (exec s)); try reflexivity.
  - destruct (validate (snapshot s)) as [[|e]|]; reflexivity.
  - destruct (pending s) as [|n rest]; [reflexivity|].
    destruct (cancel_requested env (passed s)); [reflexivity|].
    destruct (skipped env (snapshot s) (context_now s) n); [reflexivity|].
    destruct (dispatch env n (compose env (input (exec s)) (context_now s)) (world_now s)) as [[t|e|e] w']; reflexivity.
Qed.

Lemma snapshot_run (env : Env) (k : nat) (s : run_state) :
  snapshot (run env k s) = snapshot s.
Proof.
  revert s; induction k as [|k IH]; intros s; simpl; [reflexivity|].
  rewrite IH. apply snapshot_step.
Qed.







(** Scenario D: cancellation requested after P completed and before E
    is dispatched. *)
Example scenario_D :
  let x := exec (scenario_run (env_with healthy after_first) 5) in
  status x = Canceled
  /\ map step_node (steps x) = ["P"]%string
  /\ final_output x = None.
Proof. vm_compute. repeat split. Qed.

(** ** C5: the final output *)

Lemma produced_iff (tr : list Step) (n : Node) :
  produced_a_step tr n = true <-> In (id n) (map step_node tr).
Proof.
  unfold produced_a_step, step_of. induction tr as [|st tr IH]; simpl.
  - split; [discriminate | tauto].
  - destruct (String.eqb_spec (step_node st) (id n)) as [E|NE].
    + split; auto.
    + rewrite IH. split; [auto | intros [E|H]; [congruence | exact H]].
Qed.

Lemma last_of_snoc {A : Type} (l : list A) (a : A) : last_of (l ++ [a]) = Some a.
Proof. unfold last_of. rewrite rev_app_distr. reflexivity. Qed.

Lemma step_of_snoc (tr : list Step) (st : Step) (n : Node) :
  step_node st = id n -> ~ In (id n) (map step_node tr) ->
  step_of (tr ++ [st]) n = Some st.
Proof.
  intros E Hni. unfold step_of. induction tr as [|a tr IH]; simpl.
  - rewrite E, String.eqb_refl. reflexivity.
  - destruct (String.eqb_spec (step_node a) (id n)) as [Ea|_].
    + exfalso. apply Hni. left; exact Ea.
    + apply IH. intros H. apply Hni. right; exact H.
Qed.

(** Dropping nodes from a list without repeated id leaves none repeated. *)
Lemma kept_ids_NoDup (keep : Node -> bool) (ns : list Node) :
  NoDup (map id ns) -> NoDup (map id (filter keep ns)).
Proof.
  induction ns as [|a ns IH]; simpl; intros ND; [constructor|].
  inversion ND as [|? ? Hni ND']; subst.
  destruct (keep a); simpl; [|apply IH; exact ND'].
  constructor; [|apply IH; exact ND'].
  intros H. apply Hni. apply in_map_iff in H as [x [E Hx]].
  apply filter_In in Hx as [Hx _]. rewrite <- E. apply in_map; exact Hx.
Qed.

Lemma snoc_cases {A : Type} (l : list A) :
  l = [] \/ exists l' a, l = l' ++ [a].
Proof.
  induction l as [|a l IH] using rev_ind; [left; reflexivity|].
  right. exists l, a. reflexivity.
Qed.

(** When the Steps are those of the nodes of the order that produced
    one, in that order, and all succeeded, both branches of the
    aggregation rule select the text of the last Step. *)
Lemma aggregate_last (order : list Node) (tr : list Step) :
  NoDup (map id order) ->
  Forall is_produced tr ->
  map step_node tr = map id (filter (produced_a_step tr) order) ->
  aggregate order tr = text_of (last_of tr)
  /\ aggregate order tr
     = match last_producer order tr with
       | Some n => text_of (step_of tr n)
       | None => None
       end
  /\ (tr <> [] -> exists t, aggregate order tr = Some t).
Proof.
  intros ND Hall Hmap. unfold aggregate, last_producer.
  pose proof (kept_ids_NoDup (produced_a_step tr) order ND) as NDF.
  destruct (snoc_cases (filter (produced_a_step tr) order))
    as [EF|[F' [nl EF]]]; rewrite EF in *.
  - apply map_eq_nil in Hmap. subst tr. split; [reflexivity|].
    split; [reflexivity | congruence].
  - destruct (snoc_cases tr) as [Et|[tr' [sl Et]]]; subst tr.
    { rewrite map_app in Hmap. simpl in Hmap.
      destruct (map id F'); discriminate. }
    rewrite !map_app in Hmap. simpl in Hmap.
    apply app_inj_tail in Hmap as [Hmap' Hid].
    rewrite !last_of_snoc.
    assert (Hstep : step_of (tr' ++ [sl]) nl = Some sl).
    { apply step_of_snoc; [exact Hid|].
      rewrite Hmap'. rewrite map_app in NDF. simpl in NDF.
      apply NoDup_remove_2 in NDF. rewrite app_nil_r in NDF. exact NDF. }
    rewrite Hstep. simpl.
    assert (Hsl : exists t, result_text sl = Some t).
    { rewrite Forall_forall in Hall.
      destruct (Hall sl) as [t Ht]; [apply in_or_app; right; left; reflexivity|].
      exists t. unfold result_text. rewrite Ht. reflexivity. }
    destruct (String.eqb (agent_type nl) "reviewer");
      (split; [reflexivity | split; [reflexivity | intros _; exact Hsl]]).
Qed.

Lemma topologicalOrder_NoDup (w : Workflow) :
  validate w = Some Valid -> NoDup (map id (topologicalOrder w)).
Proof.
  intros V. destruct (validate_Valid w V) as [U _].
  eapply Permutation_NoDup; [|exact U].
  apply Permutation_map, Permutation_sym, sort_nodes_perm.
Qed.

Lemma not_yet_passed (done rest : list Node) (n : Node) :
  NoDup (map id (done ++ n :: rest)) -> ~ In (id n) (map id done).
Proof.
  rewrite map_app. simpl. intros ND H.
  apply NoDup_remove_2 in ND. apply ND. apply in_or_app. left; exact H.
Qed.

Lemma passed_skip (done rest : list Node) (n : Node) (tr : list Step) :
  NoDup (map id (done ++ n :: rest)) ->
  map step_node tr = map id (filter (produced_a_step tr) done) ->
  map step_node tr = map id (filter (produced_a_step tr) (done ++ [n])).
Proof.
  intros ND Hmap. rewrite filter_app. simpl.
  destruct (produced_a_step tr n) eqn:P; [|rewrite app_nil_r; exact Hmap].
  exfalso. apply (not_yet_passed done rest n ND).
  apply produced_iff in P. rewrite Hmap in P.
  apply in_map_iff in P as [x [E Hx]]. apply filter_In in Hx as [Hx _].
  rewrite <- E. apply in_map; exact Hx.
Qed.

Lemma passed_append (done rest : list Node) (n : Node) (tr : list Step)
    (st : Step) :
  NoDup (map id (done ++ n :: rest)) ->
  map step_node tr = map id (filter (produced_a_step tr) done) ->
  step_node st = id n ->
  map step_node (tr ++ [st])
  = map id (filter (produced_a_step (tr ++ [st])) (done ++ [n])).
Proof.
  intros ND Hmap Hst. rewrite filter_app, !map_app. simpl.
  assert (Pn : produced_a_step (tr ++ [st]) n = true).
  { apply produced_iff. rewrite map_app. apply in_or_app. right. left; exact Hst. }
  rewrite Pn. simpl. rewrite Hst. f_equal. rewrite Hmap at 1. f_equal.
  apply filter_ext_in. intros m Hm.
  destruct (produced_a_step tr m) eqn:P.
  - symmetry. apply produced_iff. rewrite map_app. apply in_or_app. left.
    apply produced_iff; exact P.
  - destruct (produced_a_step (tr ++ [st]) m) eqn:P'; [|reflexivity].
    apply produced_iff in P'. rewrite map_app in P'.
    apply in_app_or in P' as [H|[H|[]]].
    + apply produced_iff in H. congruence.
    + exfalso. apply (not_yet_passed done rest n ND).
      rewrite <- Hst, H. apply in_map; exact Hm.
Qed.

(** Every move of a run of a validated workflow keeps the invariant. *)
Lemma consistent_step (env : Env) (s : run_state) :
  validate (snapshot s) = Some Valid ->
  consistent s -> consistent (exec_step env s).
Proof.
  intros V. pose proof (topologicalOrder_NoDup (snapshot s) V) as ND.
  unfold consistent at 1. cbv zeta.
  destruct (status (exec s)) eqn:Hst.
  - intros [St Out]. unfold exec_step. rewrite Hst, V.
    unfold consistent; simpl. rewrite St.
    split; [reflexivity|]. split; [constructor|]. exists []. split; reflexivity.
  - intros [Out [Hall [done [Hord Hmap]]]]. unfold exec_step. rewrite Hst.
    destruct (pending s) as [|n rest] eqn:Hp.
    { rewrite app_nil_r in Hord. unfold consistent; simpl.
      apply aggregate_last; [exact ND | exact Hall |].
      rewrite Hord. exact Hmap. }
    destruct (cancel_requested env (passed s)).
    { unfold consistent; simpl. reflexivity. }
    rewrite Hord in ND.
    destruct (skipped env (snapshot s) (context_now s) n).
    { unfold consistent; simpl. rewrite Hst.
      split; [exact Out|]. split; [exact Hall|].
      exists (done ++ [n]). split.
      - rewrite Hord, <- app_assoc. reflexivity.
      - apply (passed_skip done rest n); assumption. }
    destruct (dispatch env n (compose env (input (exec s)) (context_now s))
                       (world_now s)) as [[t|e|e] w'];
      unfold consistent; simpl; try reflexivity.
    rewrite Hst. split; [exact Out|]. split.
    + apply Forall_app. split; [exact Hall|]. constructor; [|constructor].
      exists t. reflexivity.
    + exists (done ++ [n]). split.
      * rewrite Hord, <- app_assoc. reflexivity.
      * apply (passed_append done rest n); auto.
  - intros H. rewrite terminal_fixed by (rewrite Hst; reflexivity).
    unfold consistent. cbv zeta. rewrite Hst. exact H.
  - intros H. rewrite terminal_fixed by (rewrite Hst; reflexivity).
    unfold consistent. cbv zeta. rewrite Hst. exact H.
  - intros H. rewrite terminal_fixed by (rewrite Hst; reflexivity).
    unfold consistent. cbv zeta. rewrite Hst. exact H.
Qed.

Lemma consistent_run (env : Env) (k : nat) :
  forall s, validate (snapshot s) = Some Valid ->
    consistent s -> consistent (run env k s).
Proof.
  induction k as [|k IH]; intros s V C; simpl; [exact C|].
  apply IH; [rewrite snapshot_step; exact V | apply consistent_step; assumption].
Qed.

Lemma consistent_start (store : ExecutionStore) (w : Workflow) (inp : string)
    (ctx : context) (now : nat) :
  consistent (start w (create store w inp ctx now)).
Proof. unfold consistent. simpl. split; reflexivity. Qed.

(** C5: at every point of the run of an execution created from a
    validated workflow, a [Completed] status comes with the result text
    of the last Step as final output, which is the result text of the
    last node of the topological order that produced a Step, whatever
    its tag, and is present as soon as there is a Step; a [Failed] or
    [Canceled] status comes with no final output. *)
Theorem final_output_rule (env : Env) (store : ExecutionStore) (w : Workflow)
    (inp : string) (ctx : context) (now k : nat) :
  validate w = Some Valid ->
  let x := exec (run env k (start w (create store w inp ctx now))) in
  (status x = Completed ->
     final_output x = text_of (last_of (steps x))
     /\ final_output x
        = match last_producer (topologicalOrder w) (steps x) with
          | Some n => text_of (step_of (steps x) n)
          | None => None
          end
     /\ (steps x <> [] -> exists t, final_output x = Some t))
  /\ (status x = Failed \/ status x = Canceled -> final_output x = None).
Proof.
  intros V x.
  pose proof (consistent_run env k (start w (create store w inp ctx now)) V
                (consistent_start store w inp ctx now)) as C.
  unfold consistent in C. cbv zeta in C.
  rewrite snapshot_run in C. simpl snapshot in C. fold x in C.
  split.
  - intros Hst. rewrite Hst in C. exact C.
  - intros [Hst|Hst]; rewrite Hst in C; exact C.
Qed.

Lemma final_output_rule_witness :
  status (exec (scenario_run (env_with healthy never) 5)) = Completed
  /\ final_output (exec (scenario_run (env_with healthy never) 5))
     = text_of (last_of (steps (exec (scenario_run (env_with healthy never) 5))))
  /\ final_output (exec (scenario_run (env_with healthy never) 5))
     = Some "answer of qwen2"%string.
Proof.
  assert (V : validate review_chain = Some Valid) by (vm_compute; reflexivity).
  assert (C : status (exec (scenario_run (env_with healthy never) 5)) = Completed)
    by (vm_compute; reflexivity).
  split; [exact C|]. split.
  - exact (proj1 (proj1 (final_output_rule (env_with healthy never) []
                           review_chain "Analyze sales data" [] 0 5 V) C)).
  - vm_compute. reflexivity.
Defined.

(** Scenario A: all backend calls succeed. *)
Example scenario_A :
  let x := exec (scenario_run (env_with healthy never) 5) in
  status x = Completed
  /\ List.length (steps x) = 3
  /\ final_output x = text_of (step_of (steps x) node_R).
Proof. vm_compute. repeat split. Qed.

End EngineProofs.

(** * Part V. Further properties of the editor, the store and the monitor *)

Module CanvasSessions.
Import Canvas CanvasInvariants.

(** ** When [saveWorkflow] sends *)

Lemma trim_start_nil (s : jsstring) : trim_start s = [] <-> blank s = true.
Proof.
  unfold blank. induction s as [|c s IH]; simpl; [tauto|].
  destruct (is_white_space c); simpl; [exact IH|].
  split; discriminate.
Qed.

Lemma blank_trim_start (s : jsstring) : blank (trim_start s) = blank s.
Proof.
  unfold blank. induction s as [|c s IH]; simpl; [reflexivity|].
  destruct (is_white_space c) eqn:W; simpl; [exact IH|].
  rewrite W. reflexivity.
Qed.

Lemma blank_rev (s : jsstring) : blank (rev s) = blank s.
Proof.
  unfold blank. induction s as [|c s IH]; simpl; [reflexivity|].
  rewrite forallb_app, IH. simpl. rewrite andb_true_r. apply andb_comm.
Qed.

(** A string trims to the empty string exactly when all its code units
    are white space. *)
Lemma trim_blank (s : jsstring) : truthy (trim s) = negb (blank s).
Proof.
  unfold trim.
  destruct (blank s) eqn:B.
  - assert (E : trim_start s = []) by (apply trim_start_nil; exact B).
    rewrite E. reflexivity.
  - destruct (trim_start (rev (trim_start s))) as [|c r] eqn:E.
    + apply trim_start_nil in E. rewrite blank_rev, blank_trim_start in E.
      congruence.
    + simpl. destruct (rev r ++ [c]) eqn:R; [|reflexivity].
      destruct (rev r); discriminate.
Qed.

(** X1: [saveWorkflow] sends its request exactly when the name has a
    code unit that is not white space and the canvas has a node; it then
    sends one request, with the data of the canvas. *)
Theorem saveWorkflow_sends_exactly (response : option json) (st : canvas) :
  posted (snd (saveWorkflow response st))
  = if blank (workflowName st) || Nat.eqb (List.length (nodes st)) 0
    then [] else [workflowData st].
Proof.
  unfold saveWorkflow. rewrite trim_blank, negb_involutive.
  destruct (blank (workflowName st)); [reflexivity|]. simpl.
  destruct (Nat.eqb (List.length (nodes st)) 0); [reflexivity|].
  destruct response; reflexivity.
Qed.

(** X2: a save right after a save that was answered sends nothing,
    whatever the canvas was; a save after one that failed behaves as if
    the failed one had not happened, so it sends the same data again. *)
Theorem saveWorkflow_again (data : json) (again : option json) (st : canvas) :
  posted (snd (saveWorkflow again (fst (saveWorkflow (Some data) st)))) = []
  /\ saveWorkflow again (fst (saveWorkflow None st)) = saveWorkflow again st.
Proof.
  split.
  - rewrite saveWorkflow_sends_exactly. unfold saveWorkflow.
    rewrite trim_blank, negb_involutive.
    destruct (blank (workflowName st)) eqn:B; simpl; [rewrite B; reflexivity|].
    destruct (Nat.eqb (List.length (nodes st)) 0) eqn:L; simpl.
    + rewrite B, L. reflexivity.
    + reflexivity.
  - unfold saveWorkflow at 2.
    destruct (negb (truthy (trim (workflowName st)))); [reflexivity|].
    destruct (Nat.eqb (List.length (nodes st)) 0); reflexivity.
Qed.

(** ** [updateSelectedNode] and [onNodeClick] *)

Lemma eqb_id (a b : jsstring) : str_eqb a b = true <-> a = b.
Proof.
  revert b; induction a as [|x a IH]; intros [|y b]; simpl;
    try (split; discriminate); try tauto.
  rewrite andb_true_iff, N.eqb_eq, IH.
  split; [intros [-> ->]; reflexivity | intros H; inversion H; auto].
Qed.

(** X3: with a node selected, [updateSelectedNode] keeps the number and
    order of the nodes and the id, type and position of each; a node
    whose id differs from the selected one is left as it is, and a node
    with the selected id takes the agent type, model and instructions
    of the panel.  The edges are not touched. *)
Theorem updateSelectedNode_frame (st : canvas) (sel : node) :
  selectedNode st = Some sel ->
  Forall2 (updated_from st sel) (nodes st) (nodes (fst (updateSelectedNode st)))
  /\ edges (fst (updateSelectedNode st)) = edges st
  /\ selectedNode (fst (updateSelectedNode st)) = Some sel.
Proof.
  intros Hsel. unfold updateSelectedNode. rewrite Hsel. simpl.
  split; [|split; [reflexivity | exact Hsel]].
  induction (nodes st) as [|n l IH]; simpl; constructor; [|exact IH].
  unfold updated_from.
  destruct (str_eqb (node_id n) (node_id sel)) eqn:E; simpl.
  - repeat split; auto. intros Hne. apply eqb_id in E. contradiction.
  - repeat split; auto. intros He. apply eqb_id in He. congruence.
Qed.

Lemma updateSelectedNode_frame_witness :
  Forall2 (updated_from (onNodeClick (sample_node "node-2") chain_canvas)
                        (sample_node "node-2"))
          (nodes chain_canvas)
          (nodes (fst (updateSelectedNode
                         (onNodeClick (sample_node "node-2") chain_canvas)))).
Proof.
  exact (proj1 (updateSelectedNode_frame
                  (onNodeClick (sample_node "node-2") chain_canvas)
                  (sample_node "node-2") eq_refl)).
Defined.

Lemma or_else_self (a b : jsstring) : a <> [] -> or_else a b = a.
Proof. intros H. destruct a; [contradiction | reflexivity]. Qed.

Lemma same_id_same_node (l : list node) (x y : node) :
  NoDup (map node_id l) -> In x l -> In y l -> node_id x = node_id y -> x = y.
Proof.
  induction l as [|a l IH]; simpl; [tauto|].
  intros ND Hx Hy E. inversion ND as [|? ? Hni ND']; subst.
  destruct Hx as [<-|Hx], Hy as [<-|Hy]; auto.
  - exfalso. apply Hni. rewrite E. apply in_map; exact Hy.
  - exfalso. apply Hni. rewrite <- E. apply in_map; exact Hx.
Qed.

(** X4: clicking a node of the canvas and pressing update without
    touching the panel changes no node's agent type, model or
    instructions, when ids are not repeated and the node's agent type
    and model are not empty; an empty agent type or model would be
    replaced by the click's default. *)
Theorem click_then_update_keeps_settings (st : canvas) (n : node) :
  In n (nodes st) ->
  NoDup (map node_id (nodes st)) ->
  agentType (node_data_of n) <> [] ->
  model (node_data_of n) <> [] ->
  map settings (nodes (fst (updateSelectedNode (onNodeClick n st))))
  = map settings (nodes st)
  /\ map node_id (nodes (fst (updateSelectedNode (onNodeClick n st))))
     = map node_id (nodes st).
Proof.
  intros Hin ND Ha Hm. unfold updateSelectedNode, onNodeClick. simpl.
  rewrite !map_map. split; apply map_ext_in; intros m Hm'.
  - destruct (str_eqb (node_id m) (node_id n)) eqn:E; [|reflexivity].
    apply eqb_id in E. assert (m = n) by (eapply same_id_same_node; eauto).
    subst m. unfold settings. simpl.
    rewrite (or_else_self _ _ Ha), (or_else_self _ _ Hm).
    unfold or_else. destruct (instructions (node_data_of n)); reflexivity.
  - destruct (str_eqb (node_id m) (node_id n)); reflexivity.
Qed.

Lemma click_then_update_keeps_settings_witness :
  map settings
      (nodes (fst (updateSelectedNode
                     (onNodeClick (sample_node "node-2") chain_canvas))))
  = map settings (nodes chain_canvas).
Proof.
  apply (click_then_update_keeps_settings chain_canvas (sample_node "node-2")).
  - right; left; reflexivity.
  - vm_compute. repeat constructor; simpl; intuition discriminate.
  - discriminate.
  - discriminate.
Defined.

(** ** Adding a node and taking it back *)

Lemma keep_all {A : Type} (f : A -> bool) (l : list A) :
  (forall x, In x l -> f x = true) -> filter f l = l.
Proof.
  induction l as [|a l IH]; simpl; intros H; [reflexivity|].
  rewrite (H a (or_introl eq_refl)). f_equal. apply IH.
  intros x Hx. apply H. right; exact Hx.
Qed.

(** X5: adding a node whose id is not yet on the canvas, clicking it
    and deleting it gives back the nodes and the edges there were,
    when the edges joined nodes of the canvas. *)
Theorem add_click_delete_restores (now : N) (r1 r2 : float) (type : jsstring)
    (st : canvas) (n : node) :
  ~ In (id_at now) (map node_id (nodes st)) ->
  well_connected (nodes st) (edges st) ->
  nodes (addNode now r1 r2 type st) = nodes st ++ [n] ->
  let st' := fst (deleteSelectedNode (onNodeClick n (addNode now r1 r2 type st))) in
  nodes st' = nodes st /\ edges st' = edges st /\ selectedNode st' = None.
Proof.
  intros Hfresh Hwc Hn st'.
  assert (Hid : node_id n = id_at now).
  { unfold addNode in Hn. simpl in Hn. apply app_inv_head in Hn.
    inversion Hn. reflexivity. }
  assert (He : edges (addNode now r1 r2 type st) = edges st) by reflexivity.
  unfold st'. clear st'. revert Hn He.
  generalize (addNode now r1 r2 type st). intros st1 Hn He.
  unfold deleteSelectedNode, onNodeClick. simpl. rewrite Hn, He, Hid.
  split; [|split; [|reflexivity]].
  - rewrite filter_app. cbn [filter]. rewrite Hid.
    assert (R : str_eqb (id_at now) (id_at now) = true) by (apply eqb_id; reflexivity).
    rewrite R. cbn [negb]. rewrite app_nil_r. apply keep_all.
    intros x Hx. apply negb_true_iff.
    destruct (str_eqb (node_id x) (id_at now)) eqn:E; [|reflexivity].
    apply eqb_id in E. exfalso. apply Hfresh. rewrite <- E. apply in_map; exact Hx.
  - apply keep_all. intros e Hin. destruct (Hwc e Hin) as [Hs Ht].
    apply andb_true_iff. split; apply negb_true_iff.
    + destruct (str_eqb (source e) (id_at now)) eqn:E; [|reflexivity].
      apply eqb_id in E. exfalso. apply Hfresh. rewrite <- E. exact Hs.
    + destruct (str_eqb (target e) (id_at now)) eqn:E; [|reflexivity].
      apply eqb_id in E. exfalso. apply Hfresh. rewrite <- E. exact Ht.
Qed.

Lemma add_click_delete_restores_witness :
  nodes (fst (deleteSelectedNode
                (onNodeClick
                   (last (nodes (addNode 5 0.5 0.5 (js "planner") chain_canvas))
                         (sample_node "x"))
                   (addNode 5 0.5 0.5 (js "planner") chain_canvas))))
  = nodes chain_canvas.
Proof.
  apply (add_click_delete_restores 5 0.5 0.5 (js "planner") chain_canvas).
  - intros H. repeat (destruct H as [H|H]; [discriminate H|]). exact H.
  - intros e [<-|[<-|[]]]; split; simpl; auto.
  - reflexivity.
Defined.

(** ** Edges of a session join nodes of the canvas *)

Lemma ids_after_update (st : canvas) :
  map node_id (nodes (fst (updateSelectedNode st))) = map node_id (nodes st).
Proof.
  unfold updateSelectedNode. destruct (selectedNode st) as [sel|]; [|reflexivity].
  simpl. rewrite map_map. apply map_ext. intros n.
  destruct (str_eqb (node_id n) (node_id sel)); reflexivity.
Qed.

Lemma connected_same_ids (nds nds' : list node) (eds : list edge) :
  map node_id nds' = map node_id nds ->
  well_connected nds eds -> well_connected nds' eds.
Proof. intros E H e He. rewrite E. apply H; exact He. Qed.

Lemma connected_after_delete (st : canvas) :
  well_connected (nodes st) (edges st) ->
  well_connected (nodes (fst (deleteSelectedNode st)))
                 (edges (fst (deleteSelectedNode st))).
Proof.
  intros H. unfold deleteSelectedNode.
  destruct (selectedNode st) as [sel|]; [|exact H]. simpl.
  intros e He. apply filter_In in He as [He Hb].
  apply andb_true_iff in Hb as [Hs Ht]. apply negb_true_iff in Hs, Ht.
  destruct (H e He) as [Is It].
  assert (K : forall i, In i (map node_id (nodes st)) ->
            str_eqb i (node_id sel) = false ->
            In i (map node_id
                    (filter (fun n => negb (str_eqb (node_id n) (node_id sel)))
                            (nodes st)))).
  { intros i Hi Hne. apply in_map_iff in Hi as [n [<- Hn]].
    apply in_map, filter_In. split; [exact Hn|]. rewrite Hne. reflexivity. }
  split; apply K; assumption.
Qed.

Lemma connected_after_save (response : option json) (st : canvas) :
  well_connected (nodes st) (edges st) ->
  well_connected (nodes (fst (saveWorkflow response st)))
                 (edges (fst (saveWorkflow response st))).
Proof.
  intros H. unfold saveWorkflow.
  destruct (negb (truthy (trim (workflowName st)))); [exact H|].
  destruct (Nat.eqb (List.length (nodes st)) 0); [exact H|].
  destruct response; [|exact H]. simpl. intros e [].
Qed.

Lemma tidy_step (a : action) (st : canvas) :
  well_connected (nodes st) (edges st) ->
  tidy [a] st ->
  well_connected (nodes (perform a st)) (edges (perform a st)).
Proof.
  intros H [T _]. destruct a; simpl perform; try exact H.
  - unfold addNode. simpl. intros e He. destruct (H e He) as [Is It].
    rewrite map_app. split; apply in_or_app; left; assumption.
  - eapply connected_same_ids; [apply ids_after_update|].
    unfold updateSelectedNode. destruct (selectedNode st); exact H.
  - apply connected_after_delete; exact H.
  - apply connected_after_save; exact H.
  - simpl. eapply connected_same_ids; [|exact T].
    rewrite map_map. reflexivity.
  - simpl. exact T.
Qed.

Lemma tidy_run (acts : list action) :
  forall st, well_connected (nodes st) (edges st) -> tidy acts st ->
    well_connected (nodes (run_from acts st)) (edges (run_from acts st)).
Proof.
  induction acts as [|a acts IH]; intros st H T; [exact H|].
  destruct T as [Ta Tr]. apply IH; [|exact Tr].
  apply tidy_step; [exact H | split; [exact Ta | exact I]].
Qed.

Lemma payload_ids (st : canvas) :
  payload_node_ids (workflowData st)
  = map (fun n => Some (JStr (node_id n))) (nodes st).
Proof.
  unfold payload_node_ids, workflowData, array_field. simpl.
  rewrite map_map. apply map_ext. intros n. reflexivity.
Qed.

(** X6: in a session in which React Flow hands over only edges between
    nodes of the canvas and removes a node only once no edge uses it,
    every edge object of a body that [saveWorkflow] sends has as source
    and target the id of a node object of the same body: the handlers of
    the component never leave or create a dangling edge. *)
Theorem tidy_session_saves_connected (acts : list action)
    (response : option json) (p e : json) :
  tidy acts initial ->
  In p (posted (snd (saveWorkflow response (session acts)))) ->
  In e (array_field "edges" p) ->
  exists src tgt,
    field "source" e = Some (JStr src)
    /\ field "target" e = Some (JStr tgt)
    /\ In (Some (JStr src)) (payload_node_ids p)
    /\ In (Some (JStr tgt)) (payload_node_ids p).
Proof.
  intros T Hp He.
  assert (W : well_connected (nodes (session acts)) (edges (session acts))).
  { apply (tidy_run acts initial); [intros x [] | exact T]. }
  apply CanvasProofs.posted_is_workflowData in Hp. subst p.
  rewrite payload_ids.
  unfold workflowData, array_field in He. simpl in He.
  apply in_map_iff in He as [x [<- Hx]]. destruct (W x Hx) as [Is It].
  exists (source x), (target x). split; [reflexivity|]. split; [reflexivity|].
  split.
  - apply in_map_iff in Is as [n [En Hn]]. apply in_map_iff. exists n.
    split; [rewrite En; reflexivity | exact Hn].
  - apply in_map_iff in It as [n [En Hn]]. apply in_map_iff. exists n.
    split; [rewrite En; reflexivity | exact Hn].
Qed.

(** ** Nodes always carry an agent type and a model *)


Lemma tidy_session_saves_connected_witness :
  exists src tgt,
    field "source" (edge_payload (hd (sample_edge "a" "b")
                                     (edges (session sample_session))))
    = Some (JStr src)
    /\ field "target" (edge_payload (hd (sample_edge "a" "b")
                                        (edges (session sample_session))))
       = Some (JStr tgt)
    /\ In (Some (JStr src))
          (payload_node_ids (workflowData (session sample_session)))
    /\ In (Some (JStr tgt))
          (payload_node_ids (workflowData (session sample_session))).
Proof.
  apply (tidy_session_saves_connected sample_session None
           (workflowData (session sample_session))).
  - simpl. repeat split; try exact I;
      match goal with H : In _ _ |- _ => destruct H as [<-|[]] end;
      vm_compute; auto.
  - vm_compute. left; reflexivity.
  - vm_compute. left; reflexivity.
Defined.

(** ** Nodes always carry an agent type and a model *)

Lemma or_else_filled (a b : jsstring) : b <> [] -> or_else a b <> [].
Proof. intros H. unfold or_else. destruct a; [exact H | discriminate]. Qed.

Lemma configured_step (a : action) (st : canvas) :
  configured st -> filled [a] -> configured (perform a st).
Proof.
  intros [HN [HA HM]] [F _]. unfold configured.
  destruct a; simpl perform; simpl in F; try (split; [exact HN | split; assumption]).
  - unfold addNode. simpl. split; [|split; assumption].
    apply Forall_app. split; [exact HN|]. constructor; [|constructor].
    simpl. split; assumption.
  - simpl. split; [exact HN|]. split; apply or_else_filled; discriminate.
  - unfold updateSelectedNode. destruct (selectedNode st) as [sel|];
      [|split; [exact HN | split; assumption]].
    simpl. split; [|split; assumption].
    rewrite Forall_forall in *. intros m Hm.
    apply in_map_iff in Hm as [n [<- Hn]].
    destruct (str_eqb (node_id n) (node_id sel)); [simpl; split; assumption|].
    apply HN; exact Hn.
  - unfold deleteSelectedNode. destruct (selectedNode st) as [sel|];
      [|split; [exact HN | split; assumption]].
    simpl. split; [|split; assumption].
    rewrite Forall_forall in *. intros m Hm.
    apply filter_In in Hm as [Hm _]. apply HN; exact Hm.
  - unfold saveWorkflow.
    destruct (negb (truthy (trim (workflowName st))));
      [split; [exact HN | split; assumption]|].
    destruct (Nat.eqb (List.length (nodes st)) 0);
      [split; [exact HN | split; assumption]|].
    destruct response; [|split; [exact HN | split; assumption]].
    simpl. split; [constructor | split; assumption].
  - simpl. split; [|split; assumption].
    rewrite Forall_forall in *. intros m Hm.
    apply in_map_iff in Hm as [n [<- Hn]].
    apply filter_In in Hn as [Hn _]. simpl. apply HN; exact Hn.
Qed.

Lemma configured_run (acts : list action) :
  forall st, configured st -> filled acts -> configured (run_from acts st).
Proof.
  induction acts as [|a acts IH]; intros st C F; [exact C|].
  destruct F as [Fa Fr]. apply IH; [|exact Fr].
  apply configured_step; [exact C | split; [exact Fa | exact I]].
Qed.

(** X7: in a session in which the node buttons and the two selectors of
    the panel hand over non-empty values, every node object of a body
    that [saveWorkflow] sends has a non-empty [agent_type] and a
    non-empty [model]: the defaults of [onNodeClick] and of the initial
    state keep them filled. *)
Theorem filled_session_saves_configured (acts : list action)
    (response : option json) (p n : json) :
  filled acts ->
  In p (posted (snd (saveWorkflow response (session acts)))) ->
  In n (array_field "nodes" p) ->
  exists a m,
    field "agent_type" n = Some (JStr a) /\ a <> []
    /\ field "model" n = Some (JStr m) /\ m <> [].
Proof.
  intros F Hp Hn.
  assert (C : configured (session acts)).
  { apply (configured_run acts initial); [|exact F].
    split; [constructor | split; discriminate]. }
  apply CanvasProofs.posted_is_workflowData in Hp. subst p.
  unfold workflowData, array_field in Hn. simpl in Hn.
  apply in_map_iff in Hn as [x [<- Hx]].
  destruct C as [HN _]. rewrite Forall_forall in HN. destruct (HN x Hx) as [A M].
  exists (agentType (node_data_of x)), (model (node_data_of x)).
  repeat split; assumption.
Qed.

Lemma filled_session_saves_configured_witness :
  exists a m,
    field "agent_type"
          (node_payload (hd (sample_node "x") (nodes (session sample_session))))
    = Some (JStr a) /\ a <> []
    /\ field "model"
             (node_payload (hd (sample_node "x") (nodes (session sample_session))))
       = Some (JStr m) /\ m <> [].
Proof.
  apply (filled_session_saves_configured sample_session None
           (workflowData (session sample_session))).
  - simpl. repeat split; try exact I; discriminate.
  - vm_compute. left; reflexivity.
  - vm_compute. left; reflexivity.
Defined.

(** ** Ids in a saved body *)

(** X15: in a session in which no two [addNode] calls read the same
    clock value, the node objects of every body that [saveWorkflow]
    sends have pairwise different ids, and there are as many of them as
    nodes on the canvas. *)
Theorem distinct_clock_saves_distinct_ids (acts : list action)
    (response : option json) (p : json) :
  NoDup (clock_readings acts) ->
  In p (posted (snd (saveWorkflow response (session acts)))) ->
  NoDup (payload_node_ids p)
  /\ List.length (payload_node_ids p) = List.length (nodes (session acts)).
Proof.
  intros ND Hp. apply CanvasProofs.posted_is_workflowData in Hp. subst p.
  rewrite payload_ids. split; [|apply length_map].
  destruct (CanvasProofs.session_ids acts ND) as [U _].
  revert U. generalize (nodes (session acts)). intros l.
  induction l as [|a l IH]; simpl; intros U; [constructor|].
  inversion U as [|? ? Hni U']; subst. constructor; [|apply IH; exact U'].
  intros H. apply Hni. apply in_map_iff in H as [x [E Hx]].
  assert (E' : node_id x = node_id a) by congruence.
  rewrite <- E'. apply in_map; exact Hx.
Qed.

Lemma distinct_clock_saves_distinct_ids_witness :
  NoDup (payload_node_ids (workflowData (session sample_session)))
  /\ List.length (payload_node_ids (workflowData (session sample_session)))
     = List.length (nodes (session sample_session)).
Proof.
  apply (distinct_clock_saves_distinct_ids sample_session None).
  - simpl. constructor.
    + intros [H|[]]. discriminate H.
    + constructor; [intros [] | constructor].
  - vm_compute. left; reflexivity.
Defined.

End CanvasSessions.

(** ** The store *)

Module StoreProofs.
Import Canvas CanvasInvariants.

Lemma act_step (a : action) (c : canvas) (s : Store.store) :
  fst (Store.act a (c, s)) = perform a c
  /\ Store.workflows (snd (Store.act a (c, s)))
     = Store.workflows s ++ Store.saved_bodies [a] c
  /\ Store.selectedWorkflow (snd (Store.act a (c, s))) = Store.selectedWorkflow s
  /\ Store.executions (snd (Store.act a (c, s))) = Store.executions s.
Proof.
  destruct a; simpl; rewrite ?app_nil_r; try (repeat split; reflexivity).
  unfold saveWorkflow.
  destruct (negb (truthy (trim (workflowName c))));
    [destruct response; simpl; rewrite ?app_nil_r; repeat split; reflexivity|].
  destruct (Nat.eqb (List.length (nodes c)) 0);
    [destruct response; simpl; rewrite ?app_nil_r; repeat split; reflexivity|].
  destruct response; simpl; rewrite ?app_nil_r; repeat split; reflexivity.
Qed.

(** X8: through a canvas session the store's workflow list grows by
    exactly the response body of every save that passed both guards and
    was answered, in the order of the saves; no other action of the
    canvas reaches the store, and its selection and executions are
    never touched. *)
Theorem store_grows_by_saves (acts : list action) (c : canvas)
    (s : Store.store) :
  fst (Store.act_all acts (c, s)) = run_from acts c
  /\ Store.workflows (snd (Store.act_all acts (c, s)))
     = Store.workflows s ++ Store.saved_bodies acts c
  /\ Store.selectedWorkflow (snd (Store.act_all acts (c, s)))
     = Store.selectedWorkflow s
  /\ Store.executions (snd (Store.act_all acts (c, s))) = Store.executions s.
Proof.
  revert c s. induction acts as [|a acts IH]; intros c s.
  - simpl. rewrite app_nil_r. repeat split; reflexivity.
  - destruct (act_step a c s) as [A1 [A2 [A3 A4]]].
    change (Store.act_all (a :: acts) (c, s))
      with (Store.act_all acts (Store.act a (c, s))).
    destruct (Store.act a (c, s)) as [c1 s1]. simpl in A1, A2, A3, A4. subst c1.
    destruct (IH (perform a c) s1) as [B1 [B2 [B3 B4]]].
    split; [exact B1|]. split; [|split; congruence].
    rewrite B2, A2. rewrite <- app_assoc. f_equal.
    simpl. rewrite app_nil_r. reflexivity.
Qed.

End StoreProofs.

(** ** The execution monitor *)

Module MonitorProofs.
Import Canvas CanvasInvariants Monitor.

Lemma executed_listing (workflowId : option json) (listing : option (list json))
    (st : monitor) :
  executed (snd (loadWorkflowExecutions workflowId listing st)) = [].
Proof. destruct listing; reflexivity. Qed.

Lemma field_of_present (v : option json) (i : json) :
  id_of v = Some i -> present v = true.
Proof.
  destruct v as [[| | | |fields]|]; simpl; try discriminate. reflexivity.
Qed.

(** X9: [executeWorkflow] sends its request exactly when a workflow is
    selected and the input has a code unit that is not white space; it
    then sends one request, whose body carries the id of the selected
    workflow, the input as typed (not trimmed) and an empty context, and
    [isExecuting] is false once the request has settled, whatever its
    outcome.  When it does not send, the state is left as it was. *)
Theorem executeWorkflow_sends_exactly (response : option json)
    (listing : option (list json)) (st : monitor) :
  let go := present (selectedWorkflow st) && negb (blank (executionInput st)) in
  let body := execute_body (selectedWorkflow st) (executionInput st) in
  executed (snd (executeWorkflow response listing st))
  = (if go then [body] else [])
  /\ (if go
      then isExecuting (fst (executeWorkflow response listing st)) = false
           /\ selectedWorkflow (fst (executeWorkflow response listing st))
              = selectedWorkflow st
      else fst (executeWorkflow response listing st) = st)
  /\ field "workflow_id" body = id_of (selectedWorkflow st)
  /\ field "input" body = Some (JStr (executionInput st))
  /\ field "context" body = Some (JObj []).
Proof.
  intros go body. unfold go, body, executeWorkflow.
  rewrite CanvasSessions.trim_blank, negb_involutive.
  split; [|split].
  - destruct (present (selectedWorkflow st)); [|reflexivity]. simpl.
    destruct (blank (executionInput st)); [reflexivity|]. simpl.
    destruct response; [|reflexivity].
    destruct listing; reflexivity.
  - destruct (present (selectedWorkflow st)); [|reflexivity]. simpl.
    destruct (blank (executionInput st)); [reflexivity|]. simpl.
    destruct response; [|split; reflexivity].
    destruct listing; split; reflexivity.
  - unfold execute_body.
    destruct (id_of (selectedWorkflow st)); repeat split; reflexivity.
Qed.

(** X10: after an execution that was answered, the response is the
    selected execution and the input is cleared, so running again at
    once sends nothing; after one that failed, the input and the
    selection are kept, so running again sends the same request. *)
Theorem executeWorkflow_again (data : json) (again : option json)
    (listing listing' : option (list json)) (st : monitor) :
  executed (snd (executeWorkflow again listing'
                   (fst (executeWorkflow (Some data) listing st)))) = []
  /\ executed (snd (executeWorkflow again listing'
                      (fst (executeWorkflow None listing st))))
     = executed (snd (executeWorkflow again listing' st))
  /\ (executed (snd (executeWorkflow (Some data) listing st)) <> [] ->
      selectedExecution (fst (executeWorkflow (Some data) listing st))
      = Some data
      /\ executionInput (fst (executeWorkflow (Some data) listing st)) = []).
Proof.
  unfold executeWorkflow.
  destruct (present (selectedWorkflow st)) eqn:P; simpl.
  2:{ rewrite P. simpl. split; [reflexivity|]. split; [reflexivity|].
      intros H; exfalso; apply H; reflexivity. }
  destruct (truthy (trim (executionInput st))) eqn:T; simpl.
  2:{ rewrite P, T. simpl. split; [reflexivity|]. split; [reflexivity|].
      intros H; exfalso; apply H; reflexivity. }
  split; [|split].
  - destruct listing; simpl; rewrite P; reflexivity.
  - rewrite P, T. simpl. destruct again; [|reflexivity].
    destruct listing'; reflexivity.
  - intros _. destruct listing; split; reflexivity.
Qed.


Lemma executeWorkflow_again_witness :
  selectedExecution (fst (executeWorkflow (Some JNull) None ready_monitor))
  = Some JNull
  /\ executionInput (fst (executeWorkflow (Some JNull) None ready_monitor)) = [].
Proof.
  apply (proj2 (proj2 (executeWorkflow_again JNull None None None ready_monitor))).
  vm_compute. discriminate.
Defined.


Lemma has_id_field (value : jsstring) (w : json) :
  has_id value w = true -> field "id" w = Some (JStr value).
Proof.
  unfold has_id. destruct (field "id" w) as [[|i| | |]|]; try discriminate.
  intros E. apply CanvasSessions.eqb_id in E. subst i. reflexivity.
Qed.

Lemma find_workflow_found (value : jsstring) (ws : list json) (w : json) :
  find_workflow value ws = Some (Some w) ->
  In w ws /\ field "id" w = Some (JStr value).
Proof.
  induction ws as [|a ws IH]; simpl; [discriminate|].
  destruct a; try discriminate;
    match goal with
    | |- context [has_id value ?a] =>
        destruct (has_id value a) eqn:E;
        [ intros H; inversion H; subst; split;
          [left; reflexivity | apply has_id_field; exact E]
        | intros H; destruct (IH H) as [I1 I2]; split; [right; exact I1 | exact I2] ]
    end.
Qed.

Lemma find_workflow_none (value : jsstring) (ws : list json) :
  find_workflow value ws = Some None ->
  forall w, In w ws -> has_id value w = false.
Proof.
  induction ws as [|a ws IH]; simpl; [intros _ w []|].
  destruct a; try discriminate;
    match goal with
    | |- context [has_id value ?a] =>
        destruct (has_id value a) eqn:E; [discriminate|];
        intros H w [<-|Hw]; [exact E | apply (IH H w Hw)]
    end.
Qed.

(** Without [null] among the workflows the search is that of the first
    workflow with the id. *)
Lemma find_workflow_total (value : jsstring) (ws : list json) :
  ~ In JNull ws -> find_workflow value ws = Some (find (has_id value) ws).
Proof.
  induction ws as [|a ws IH]; simpl; [reflexivity|]. intros H.
  assert (Ha : a <> JNull) by (intros E; apply H; left; exact E).
  assert (Hr : ~ In JNull ws) by (intros E; apply H; right; exact E).
  destruct a; try contradiction;
    match goal with
    | |- context [has_id value ?a] =>
        destruct (has_id value a); [reflexivity | apply IH; exact Hr]
    end.
Qed.

(** X12: the workflow the selector puts into the monitor is one of the
    store whose id is the chosen value, and running it with an input
    that is not blank sends that id as [workflow_id]; when no workflow
    of the store has the chosen id the selection is emptied and running
    sends nothing; and when the search runs into a [null] entry before
    finding one, the monitor is left as it was. *)
Theorem chosen_workflow_is_run (value : jsstring) (st : monitor)
    (s : Store.store) (response : option json) (listing : option (list json)) :
  let st1 := chooseWorkflow value (st, s) in
  match find_workflow value (Store.workflows s) with
  | Some (Some w) =>
      selectedWorkflow st1 = Some w
      /\ In w (Store.workflows s)
      /\ field "id" w = Some (JStr value)
      /\ executed (snd (executeWorkflow response listing st1))
         = (if blank (executionInput st) then []
            else [execute_body (Some w) (executionInput st)])
      /\ field "workflow_id" (execute_body (Some w) (executionInput st))
         = Some (JStr value)
  | Some None =>
      selectedWorkflow st1 = None
      /\ (forall w, In w (Store.workflows s) -> has_id value w = false)
      /\ executed (snd (executeWorkflow response listing st1)) = []
  | None => st1 = st
  end.
Proof.
  intros st1. unfold st1, chooseWorkflow.
  destruct (find_workflow value (Store.workflows s)) as [[w|]|] eqn:F;
    [| |reflexivity].
  - destruct (find_workflow_found value _ w F) as [Hin Hid].
    split; [reflexivity|]. split; [exact Hin|]. split; [exact Hid|].
    assert (P : present (Some w) = true).
    { apply (field_of_present (Some w) (JStr value)). exact Hid. }
    split.
    + unfold executeWorkflow. simpl selectedWorkflow. rewrite P. simpl.
      rewrite CanvasSessions.trim_blank, negb_involutive.
      destruct (blank (executionInput st)); [reflexivity|].
      destruct response; [|reflexivity]. destruct listing; reflexivity.
    + unfold execute_body. simpl id_of. rewrite Hid. reflexivity.
  - split; [reflexivity|]. split; [apply find_workflow_none; exact F | reflexivity].
Qed.

(** X13: the badge colour and the icon of a status always belong to the
    same case, and every status other than the strings [completed],
    [failed] and [running], a missing one included, is shown with the
    clock. *)
Theorem status_display_consistent (status : option json) :
  getStatusColor status = colour_of_icon (getStatusIcon status)
  /\ (getStatusIcon status = Clock <->
      is_status "completed" status = false
      /\ is_status "failed" status = false
      /\ is_status "running" status = false).
Proof.
  unfold getStatusColor, getStatusIcon.
  destruct (is_status "completed" status);
    [split; [reflexivity | split; [discriminate | intros [H _]; discriminate]]|].
  destruct (is_status "failed" status);
    [split; [reflexivity | split; [discriminate | intros [_ [H _]]; discriminate]]|].
  destruct (is_status "running" status);
    [split; [reflexivity | split; [discriminate | intros [_ [_ H]]; discriminate]]|].
  split; [reflexivity | split; auto].
Qed.

(** X14: a workflow the canvas saved can be run from the monitor: once
    the save went through, and with no [null] entry in the store,
    choosing the id of the response body selects a workflow with that
    id, the response body itself when the store had none with it, and
    running it sends that id. *)
Theorem saved_workflow_can_be_run (data : json) (i : jsstring) (c : canvas)
    (s : Store.store) (st : monitor) :
  field "id" data = Some (JStr i) ->
  posted (snd (saveWorkflow (Some data) c)) <> [] ->
  ~ In JNull (Store.workflows s) ->
  let s' := snd (Store.act (Save (Some data)) (c, s)) in
  exists w,
    selectedWorkflow (chooseWorkflow i (st, s')) = Some w
    /\ field "id" w = Some (JStr i)
    /\ ((forall v, In v (Store.workflows s) -> has_id i v = false) -> w = data)
    /\ forall response listing,
         blank (executionInput st) = false ->
         exists body,
           executed (snd (executeWorkflow response listing
                            (chooseWorkflow i (st, s')))) = [body]
           /\ field "workflow_id" body = Some (JStr i).
Proof.
  intros Hid Hsent Hnull s'.
  assert (Hs : Store.workflows s' = Store.workflows s ++ [data]).
  { unfold s'. destruct (StoreProofs.act_step (Save (Some data)) c s) as [_ [A _]].
    rewrite A. f_equal. simpl.
    destruct (posted (snd (saveWorkflow (Some data) c))); [contradiction|].
    reflexivity. }
  assert (Hd : has_id i data = true).
  { unfold has_id. rewrite Hid. apply CanvasSessions.eqb_id. reflexivity. }
  assert (Hnull' : ~ In JNull (Store.workflows s ++ [data])).
  { intros H. apply in_app_or in H as [H|[H|[]]]; [contradiction|].
    rewrite H in Hid. discriminate. }
  unfold chooseWorkflow. rewrite Hs, (find_workflow_total i _ Hnull').
  simpl selectedWorkflow.
  destruct (find (has_id i) (Store.workflows s ++ [data])) as [w|] eqn:F.
  2:{ exfalso. pose proof (find_none _ _ F data) as N.
      rewrite N in Hd; [discriminate|]. apply in_or_app. right; left; reflexivity. }
  exists w. split; [reflexivity|].
  pose proof (find_some _ _ F) as [Hin Hw]. apply has_id_field in Hw.
  split; [exact Hw|]. split.
  - intros Hnone. apply in_app_or in Hin as [Hin|[E|[]]]; [|symmetry; exact E].
    exfalso. apply find_some in F as [_ T]. rewrite (Hnone w Hin) in T. discriminate.
  - intros response listing B.
    exists (execute_body (Some w) (executionInput st)). split.
    + unfold executeWorkflow. simpl selectedWorkflow.
      rewrite (field_of_present (Some w) (JStr i) Hw). simpl.
      rewrite CanvasSessions.trim_blank, negb_involutive. simpl executionInput.
      rewrite B. destruct response; [|reflexivity]. destruct listing; reflexivity.
    + unfold execute_body. simpl id_of. rewrite Hw. reflexivity.
Qed.

Lemma saved_workflow_can_be_run_witness :
  exists w,
    selectedWorkflow
      (chooseWorkflow (js "wf-7")
         (ready_monitor,
          snd (Store.act (Save (Some (sample_workflow "wf-7")))
                         (one_node_canvas, sample_store))))
    = Some w
    /\ field "id" w = Some (JStr (js "wf-7")).
Proof.
  destruct (saved_workflow_can_be_run (sample_workflow "wf-7") (js "wf-7")
              one_node_canvas sample_store ready_monitor)
    as [w [A [B _]]].
  - reflexivity.
  - vm_compute. discriminate.
  - intros H. repeat (destruct H as [H|H]; [discriminate H|]). exact H.
  - exists w. split; [exact A | exact B].
Defined.

End MonitorProofs.
